(** * Obsidian sensor input and wire contract: magnetism input, gravity serialisation

    A shallow embedding of [src/input/magnetism.cpp] and [src/serial/gravity.cpp]
    and the properties the specification states about them.

    Conventions of the embedding:
    - an Eigen index ([rows()], [cols()], [size()]) is an [N]; [static_cast<uint>]
      and [uint] arithmetic are written out as reduction modulo [2^32];
    - a [double] is its 64-bit IEEE 754 pattern, compared through its decoding
      to [spec_float];
    - [LOG(ERROR)] appends a line to a log that is threaded through the code;
    - reading a matrix coefficient outside its bounds (Eigen's [eigen_assert])
      is a failure of the call, not a value. *)

From Stdlib Require Import ZArith NArith Lia.
From Stdlib Require Import Floats.SpecFloat.
From Stdlib Require Import Strings.Byte.
From stdpp Require Import base numbers option list strings gmap pretty.

Local Open Scope N_scope.

(** ** Machine numbers *)

(** [static_cast<uint>(n)] and arithmetic at type [uint] (32 bits). *)
Definition uint (n : N) : N := n mod 2 ^ 32.

(** A [double], as the eight bytes of its object representation, least
    significant byte first. *)
Record double := Double {
  byte0 : byte; byte1 : byte; byte2 : byte; byte3 : byte;
  byte4 : byte; byte5 : byte; byte6 : byte; byte7 : byte }.

Definition double_bytes (d : double) : list byte :=
  [byte0 d; byte1 d; byte2 d; byte3 d; byte4 d; byte5 d; byte6 d; byte7 d].

Definition bytes_double (bs : list byte) : option double :=
  match bs with
  | [b0; b1; b2; b3; b4; b5; b6; b7] => Some (Double b0 b1 b2 b3 b4 b5 b6 b7)
  | _ => None
  end.

(** The 64-bit pattern of a [double]. *)
Definition double_bits (d : double) : Z :=
  fold_right (λ b acc, Z.of_N (Byte.to_N b) + 256 * acc)%Z 0%Z (double_bytes d).

Definition byte_of_Z (z : Z) : byte :=
  default x00 (Byte.of_N (Z.to_N (z mod 256))).

(** The [double] with a given 64-bit pattern. *)
Definition double_of_bits (z : Z) : double :=
  Double (byte_of_Z z) (byte_of_Z (z ≫ 8)) (byte_of_Z (z ≫ 16)) (byte_of_Z (z ≫ 24))
         (byte_of_Z (z ≫ 32)) (byte_of_Z (z ≫ 40)) (byte_of_Z (z ≫ 48)) (byte_of_Z (z ≫ 56)).

(** IEEE 754 binary64 decoding: sign (bit 63), biased exponent (bits 62-52),
    fraction (bits 51-0). *)
Definition double_value (d : double) : spec_float :=
  let b := double_bits d in
  let sign := Z.testbit b 63 in
  let e := Z.land (b ≫ 52) 0x7ff in
  let m := Z.land b 0xfffffffffffff in
  if (e =? 0)%Z then
    match m with Zpos p => S754_finite sign p (-1074) | _ => S754_zero sign end
  else if (e =? 0x7ff)%Z then
    if (m =? 0)%Z then S754_infinity sign else S754_nan
  else
    match (m + 2 ^ 52)%Z with Zpos p => S754_finite sign p (e - 1075) | _ => S754_nan end.

(** The comparisons of C++ on [double]; each is false when an operand is a NaN. *)
Definition dlt (a b : double) : bool := SFltb (double_value a) (double_value b).
Definition dgt (a b : double) : bool := SFltb (double_value b) (double_value a).
Definition dle (a b : double) : bool := SFleb (double_value a) (double_value b).

(** The literal [0] converted to [double]. *)
Definition dzero : double := double_of_bits 0.

Global Arguments double_bits : simpl never.
Global Arguments double_value : simpl never.
Global Arguments dlt : simpl never.
Global Arguments dgt : simpl never.
Global Arguments dle : simpl never.
Global Arguments dzero : simpl never.

(** ** Eigen containers *)

(** [Eigen::MatrixXd]: run-time row and column counts and the coefficients,
    listed row by row.  Eigen keeps [length coeffs = rows * cols]. *)
Record MatrixXd := Matrix { rows : N; cols : N; coeffs : list double }.

Definition MatrixXd_wf (m : MatrixXd) : Prop :=
  N.of_nat (length (coeffs m)) = rows m * cols m.

(** A default-constructed [MatrixXd] is 0 x 0. *)
Definition MatrixXd_empty : MatrixXd := Matrix 0 0 [].

(** [Eigen::VectorXd]: a column of doubles; [VectorXi]: a column of ints. *)
Definition VectorXd := list double.
Definition VectorXi := list Z.

Definition size {A} (v : list A) : N := N.of_nat (length v).

(** ** Effects: a log, a failure *)

(** Why a call does not return. *)
Inductive failure :=
  | IndexOutOfRange   (* eigen_assert on a coefficient access *)
  | BadAnyCast (key : string)   (* boost::any_cast on an absent or ill-typed option *)
  | CsvUnreadable (path : string)
  | OutOfFuel.        (* the loop ran longer than the fuel allows *)

(** A computation over a state [St] that returns an [A] or fails. *)
Definition Eff (St A : Type) : Type := St → (failure + A) * St.

Global Instance Eff_ret {St} : MRet (Eff St) := λ A a s, (inr a, s).
Global Instance Eff_bind {St} : MBind (Eff St) := λ A B f m s,
  match m s with
  | (inr a, s') => f a s'
  | (inl e, s') => (inl e, s')
  end.

Definition raise {St A} (e : failure) : Eff St A := λ s, (inl e, s).
Definition tell {X} (x : X) : Eff (list X) () := λ s, (inr (), s ++ [x]).

(** [m(l, c)]: the coefficient, or Eigen's assertion. *)
Definition coeff {St} (m : MatrixXd) (l c : N) : Eff St double :=
  if (l <? rows m) && (c <? cols m) then
    match coeffs m !! N.to_nat (l * cols m + c) with
    | Some x => mret x
    | None => raise IndexOutOfRange
    end
  else raise IndexOutOfRange.

(** C++'s [a || b]: [b] is evaluated only when [a] is false. *)
Definition orelse {St} (a b : Eff St bool) : Eff St bool :=
  x ← a; if x : bool then mret true else b.

(** ** Data types of the sensor contract

    The enumerations and structs are declared in headers that are not part of
    the sources at hand; each record lists the members the code reads or
    writes, under the names the code uses. *)

(** Modelled from the spec: the declaration of [ForwardModel] is missing.
    Section 3 makes the sensor type a closed enumeration with one tag per
    physical sensor kind; the code names [MAGNETICS]. *)
Inductive ForwardModel :=
  | GRAVITY | MAGNETICS | MTANISO | SEISMIC1D | CONTACTPOINT | THERMAL.

Global Instance ForwardModel_eq_dec : EqDecision ForwardModel.
Proof. solve_decision. Defined.

Definition ForwardModel_tag (f : ForwardModel) : nat :=
  match f with
  | GRAVITY => 0 | MAGNETICS => 1 | MTANISO => 2
  | SEISMIC1D => 3 | CONTACTPOINT => 4 | THERMAL => 5
  end%nat.

Definition ForwardModel_of_tag (n : nat) : option ForwardModel :=
  match n with
  | 0 => Some GRAVITY | 1 => Some MAGNETICS | 2 => Some MTANISO
  | 3 => Some SEISMIC1D | 4 => Some CONTACTPOINT | 5 => Some THERMAL
  | _ => None
  end%nat.

Global Instance ForwardModel_countable : Countable ForwardModel.
Proof.
  apply (inj_countable ForwardModel_tag ForwardModel_of_tag).
  by intros [].
Defined.

(** Modelled from the spec: the declaration of the voxelisation struct is
    missing.  Section 3: a grid resolution along three axes and a
    supersampling factor; the code holds them as [uint]. *)
Record VoxelSpec := Voxel {
  xResolution : N; yResolution : N; zResolution : N; supersample : N }.

(** Modelled from the spec: the declaration of the noise struct is missing.
    Section 3: a pair of real hyperparameters. *)
Record NoiseSpec := Noise { inverseGammaAlpha : double; inverseGammaBeta : double }.

(** Modelled from the spec: the declaration of [WorldSpec] is missing.
    Sections 3 and 6: a bounding box, of which the code reads the horizontal
    extent, each axis a [(min, max)] pair. *)
Record WorldSpec := World { xBounds : double * double; yBounds : double * double }.

Definition Vector3d : Type := double * double * double.
Definition Vector3i : Type := Z * Z * Z.

(** ** Program options and files *)

(** What a [po::variable_value] holds. *)
Inductive option_value :=
  | VBool (b : bool)
  | VString (s : string)
  | VDouble (d : double)
  | VUint (n : N)
  | VVector3i (v : Vector3i)
  | VVector3d (v : Vector3d).

(** The type a [po::value<T>()] declares for an option. *)
Inductive value_type := TBool | TString | TDouble | TUint | TVector3i | TVector3d.

Definition type_of (v : option_value) : value_type :=
  match v with
  | VBool _ => TBool
  | VString _ => TString
  | VDouble _ => TDouble
  | VUint _ => TUint
  | VVector3i _ => TVector3i
  | VVector3d _ => TVector3d
  end.

(** One entry of a [po::options_description]: name, declared type, help text. *)
Record option_decl := Option_decl {
  opt_name : string; opt_type : value_type; opt_description : string }.

(** What a parse call touches, in order. *)
Inductive access :=
  | ReadOption (key : string)
  | ReadCsv (path : string).

(** [vm[key].as<T>()]: the stored value when it is there and is a [T]. *)
Definition as_string (vm : gmap string option_value) (key : string) : Eff (list access) string :=
  _ ← tell (ReadOption key);
  match vm !! key with Some (VString s) => mret s | _ => raise (BadAnyCast key) end.

Definition as_double (vm : gmap string option_value) (key : string) : Eff (list access) double :=
  _ ← tell (ReadOption key);
  match vm !! key with Some (VDouble d) => mret d | _ => raise (BadAnyCast key) end.

Definition as_uint (vm : gmap string option_value) (key : string) : Eff (list access) N :=
  _ ← tell (ReadOption key);
  match vm !! key with Some (VUint n) => mret n | _ => raise (BadAnyCast key) end.

Definition as_Vector3i (vm : gmap string option_value) (key : string) : Eff (list access) Vector3i :=
  _ ← tell (ReadOption key);
  match vm !! key with Some (VVector3i v) => mret v | _ => raise (BadAnyCast key) end.

Definition as_Vector3d (vm : gmap string option_value) (key : string) : Eff (list access) Vector3d :=
  _ ← tell (ReadOption key);
  match vm !! key with Some (VVector3d v) => mret v | _ => raise (BadAnyCast key) end.

(** [uint(i)] for an [int] [i]. *)
Definition uint_of_int (i : Z) : N := Z.to_N (i mod 2 ^ 32).

(** Modelled from the spec: [io::csv::read] is an external table reader
    (sections 1 and 6); here it looks the path up in a file system that maps a
    path to the table stored there, and fails when there is none. *)
Definition csv_read {T} (files : string → option T) (path : string) : Eff (list access) T :=
  _ ← tell (ReadCsv path);
  match files path with Some t => mret t | None => raise (CsvUnreadable path) end.

(** ** src/input/magnetism.cpp *)

Module Mag.

(** Modelled from the spec: the declarations of [MagSpec] and [MagResults]
    are missing.  Section 3: a spec holds the locations, the voxelisation,
    the noise and, for magnetism, a constant background field; results hold
    a likelihood and the readings. *)
Record MagSpec := {
  locations : MatrixXd;
  voxelisation : VoxelSpec;
  noise : NoiseSpec;
  backgroundField : Vector3d }.

Record MagResults := { likelihood : double; readings : VectorXd }.

Section Input.

(** What the scalar members of a default-constructed [MagSpec] and
    [MagResults] hold: the declarations that would say so are not part of the
    sources, so the values stay arbitrary. *)
Variable initial_voxelisation : VoxelSpec.
Variable initial_noise : NoiseSpec.
Variable initial_backgroundField : Vector3d.
Variable initial_likelihood : double.

(** The tables on disk. *)
Variable matrix_files : string → option MatrixXd.
Variable vector_files : string → option VectorXd.

(** [MagSpec spec;] *)
Definition MagSpec_default : MagSpec :=
  {| locations := MatrixXd_empty;
     voxelisation := initial_voxelisation;
     noise := initial_noise;
     backgroundField := initial_backgroundField |}.

(** [MagResults s;] *)
Definition MagResults_default : MagResults :=
  {| likelihood := initial_likelihood; readings := [] |}.

Definition configHeading : string := "magnetism".

Definition parseSpec (vm : gmap string option_value) (sensorsEnabled : gset ForwardModel)
  : Eff (list access) MagSpec :=
  let spec := MagSpec_default in
  if bool_decide (MAGNETICS ∈ sensorsEnabled) then
    path ← as_string vm "magnetism.sensorLocations";
    locs ← csv_read matrix_files path;
    magRes ← as_Vector3i vm "magnetism.gridResolution";
    super ← as_uint vm "magnetism.supersample";
    alpha ← as_double vm "magnetism.noiseAlpha";
    beta ← as_double vm "magnetism.noiseBeta";
    magFld ← as_Vector3d vm "magnetism.magneticField";
    mret {| locations := locs;
            voxelisation :=
              {| xResolution := uint_of_int magRes.1.1;
                 yResolution := uint_of_int magRes.1.2;
                 zResolution := uint_of_int magRes.2;
                 supersample := super |};
            noise := {| inverseGammaAlpha := alpha; inverseGammaBeta := beta |};
            backgroundField := magFld |}
  else mret spec.

Definition parseSensorReadings (vm : gmap string option_value)
    (sensorsEnabled : gset ForwardModel) : Eff (list access) MagResults :=
  let s := MagResults_default in
  if bool_decide (MAGNETICS ∈ sensorsEnabled) then
    path ← as_string vm "magnetism.sensorReadings";
    r ← csv_read vector_files path;
    mret {| likelihood := dzero; readings := r |}
  else mret s.

End Input.

(** [initSensorInputFileOptions<ForwardModel::MAGNETICS>]: [add_options()]
    appends the eight declarations to the description it is handed. *)
Definition initSensorInputFileOptions (options : list option_decl) : list option_decl :=
  options ++
  [ Option_decl "magnetism.enabled" TBool "enable sensor";
    Option_decl "magnetism.sensorLocations" TString "sensor locations";
    Option_decl "magnetism.sensorReadings" TString "sensor readings";
    Option_decl "magnetism.gridResolution" TVector3i "grid points per cube side";
    Option_decl "magnetism.noiseAlpha" TDouble "noise NIG alpha variable";
    Option_decl "magnetism.noiseBeta" TDouble "noise NIG beta variable";
    Option_decl "magnetism.supersample" TUint "supersampling exponent";
    Option_decl "magnetism.magneticField" TVector3d "magnetic field of location" ].

(** [enableProperties<ForwardModel::MAGNETICS>]: one coefficient of the mask is
    assigned.  [LogSusceptibility] is the value of the enumerator
    [RockProperty::LogSusceptibility], declared outside the sources at hand. *)
Definition enableProperties (LogSusceptibility : N) (propMasksMask : VectorXi)
  : failure + VectorXi :=
  let i := uint LogSusceptibility in
  if i <? size propMasksMask then inr (<[N.to_nat i := 1%Z]> propMasksMask)
  else inl IndexOutOfRange.

(** The lines [validateSensor] logs. *)
Definition msg_no_locations : string :=
  "input: no magnetism locations specified. Disable forward model if it is not used.".
Definition msg_columns : string :=
  "input: locations in magnetism must have three cols (x, y, z).".
Definition msg_out_of_bounds (l : N) : string :=
  "input: magnetism location " +:+ pretty (uint (l + 1)) +:+ " is out of world bounds".
Definition msg_voxelisation : string :=
  "input: magnetism voxelisation (x, y, z)must be greater than 0.".
Definition msg_noise : string :=
  "input: magnetism noise parameters must be greater than 0".
Definition msg_readings (nreadings nlocations : N) : string :=
  "input: different number of readings for magnetism results (" +:+ pretty nreadings
  +:+ ") to location specified. Remove or add more locations (" +:+ pretty nlocations +:+ ").".

Definition LOG_ERROR (line : string) : Eff (list string) () := tell line.

Global Arguments msg_out_of_bounds : simpl never.
Global Arguments msg_readings : simpl never.

(** The condition of the [if] in the loop over the locations, with the
    short-circuit evaluation of its four disjuncts. *)
Definition outside (world : WorldSpec) (spec : MagSpec) (l : N) : Eff (list string) bool :=
  orelse (x ← coeff (locations spec) l 0; mret (dlt x (xBounds world).1))
 (orelse (x ← coeff (locations spec) l 0; mret (dgt x (xBounds world).2))
 (orelse (y ← coeff (locations spec) l 1; mret (dlt y (yBounds world).1))
         (y ← coeff (locations spec) l 1; mret (dgt y (yBounds world).2)))).

(** [for (uint l = 0; l < spec.locations.rows(); l++)]: the counter is a
    [uint], the bound an Eigen index.  Each iteration uses one unit of fuel. *)
Fixpoint locations_loop (fuel : nat) (world : WorldSpec) (spec : MagSpec)
    (l : N) (valid : bool) : Eff (list string) bool :=
  match fuel with
  | O => raise OutOfFuel
  | S fuel' =>
      if l <? rows (locations spec) then
        out ← outside world spec l;
        valid ← (if out : bool
                 then _ ← LOG_ERROR (msg_out_of_bounds l); mret false
                 else mret valid);
        locations_loop fuel' world spec (uint (l + 1)) valid
      else mret valid
  end.

Definition validateSensor_body (world : WorldSpec) (spec : MagSpec) (result : MagResults)
  : Eff (list string) bool :=
  let valid := true in
  valid ← (if rows (locations spec) =? 0
           then _ ← LOG_ERROR msg_no_locations; mret false
           else mret valid);
  valid ← (if negb (uint (cols (locations spec)) =? 3)
           then _ ← LOG_ERROR msg_columns; mret false
           else mret valid);
  valid ← locations_loop (S (N.to_nat (rows (locations spec)))) world spec 0 valid;
  valid ← (if (xResolution (voxelisation spec) <=? 0) || (yResolution (voxelisation spec) <=? 0)
              || (zResolution (voxelisation spec) <=? 0)
           then _ ← LOG_ERROR msg_voxelisation; mret false
           else mret valid);
  valid ← (if dle (inverseGammaAlpha (noise spec)) dzero
              || dle (inverseGammaAlpha (noise spec)) dzero
           then _ ← LOG_ERROR msg_noise; mret false
           else mret valid);
  valid ← (if negb (uint (rows (locations spec)) =? size (readings result))
           then _ ← LOG_ERROR (msg_readings (size (readings result)) (rows (locations spec)));
                mret false
           else mret valid);
  mret valid.

(** [validateSensor<MagSpec>], run on an empty log: the value returned (or why
    the call does not return) and the lines logged. *)
Definition validateSensor (world : WorldSpec) (spec : MagSpec) (result : MagResults)
  : (failure + bool) * list string :=
  validateSensor_body world spec result [].

End Mag.

(** ** The wire messages *)

Module PB.

(** Modelled from the spec: the generated protobuf classes
    ([serialtypes.pb.h]) are missing.  Section 4.2 gives each message
    explicitly declared fields, every one of them optional on the wire
    (absent when never set); the field names are those of the accessors the
    code calls.  A getter of an absent field returns the default of its type,
    and [has_x] tells whether [x] is present.  The declared width of the
    numeric fields is not known; a field holds the number it was given. *)
Record VoxelisationProtobuf := {
  xresolution : option N; yresolution : option N;
  zresolution : option N; supersample : option N }.

Record NoiseSpecProtobuf := {
  inversegammaalpha : option double; inversegammabeta : option double }.

Record GravSpecProtobuf := {
  numlocations : option N;
  locations : option (list byte);
  voxelisation : option VoxelisationProtobuf;
  noise : option NoiseSpecProtobuf }.

Record GravParamsProtobuf := { returnsensordata : option bool }.

Record GravResultsProtobuf := {
  likelihood : option double;
  numreadings : option N;
  readings : option (list byte) }.

(** Freshly constructed (and cleared) messages. *)
Definition Voxelisation_clear : VoxelisationProtobuf := Build_VoxelisationProtobuf None None None None.
Definition NoiseSpec_clear : NoiseSpecProtobuf := Build_NoiseSpecProtobuf None None.
Definition GravSpec_clear : GravSpecProtobuf := Build_GravSpecProtobuf None None None None.
Definition GravParams_clear : GravParamsProtobuf := Build_GravParamsProtobuf None.
Definition GravResults_clear : GravResultsProtobuf := Build_GravResultsProtobuf None None None.

Definition has_readings (pb : GravResultsProtobuf) : bool := bool_decide (is_Some (readings pb)).
Definition has_numreadings (pb : GravResultsProtobuf) : bool := bool_decide (is_Some (numreadings pb)).

End PB.

(** The protobuf library's part: a message type can be written to a string
    and read back.  [ParseFromString] gives the message as it stands after the
    call (the code never looks at the flag the call returns). *)
Class ProtobufMessage (M : Type) := {
  SerializeToString : M → list byte;
  ParseFromString : list byte → M }.

(** What the library promises of the two: parsing what was serialised gives
    the message back. *)
Definition parse_serialize (M : Type) `{ProtobufMessage M} : Prop :=
  ∀ pb : M, ParseFromString (SerializeToString pb) = pb.

(** Modelled from the spec: [protobufToString] of [serial/utility.hpp] is
    missing; it gives the message as the string the library writes. *)
Definition protobufToString {M} `{ProtobufMessage M} (pb : M) : list byte :=
  SerializeToString pb.

(** ** src/serial/gravity.cpp *)

Module Grav.

(** Modelled from the spec: the declarations of [GravSpec], [GravParams] and
    [GravResults] are missing.  Section 3: a spec holds the locations, the
    voxelisation and the noise; params hold the flag that asks for the
    readings; results hold a likelihood and the readings. *)
Record GravSpec := {
  locations : MatrixXd;
  voxelisation : VoxelSpec;
  noise : NoiseSpec }.

Record GravParams := { returnSensorData : bool }.

Record GravResults := { likelihood : double; readings : VectorXd }.

(** A [VectorXd] passed where a [MatrixXd] is expected: one column. *)
Definition as_matrix (v : VectorXd) : MatrixXd := Matrix (size v) 1 v.

(** A [MatrixXd] assigned to a [VectorXd]: Eigen asserts that it is a column. *)
Definition as_vector (m : MatrixXd) : option VectorXd :=
  if cols m =? 1 then Some (coeffs m) else None.

Section Serial.

Context `{!ProtobufMessage PB.GravSpecProtobuf}.
Context `{!ProtobufMessage PB.GravParamsProtobuf}.
Context `{!ProtobufMessage PB.GravResultsProtobuf}.

(** The matrix codec of [serial/utility.hpp], which is not part of the sources:
    [matrixString] flattens a matrix, [stringMatrix] rebuilds one from the
    bytes and a row count, or throws. *)
Variable matrixString : MatrixXd → list byte.
Variable stringMatrix : list byte → N → option MatrixXd.

Definition serialise_GravSpec (g : GravSpec) : list byte :=
  let pb :=
    {| PB.numlocations := Some (rows (locations g));
       PB.locations := Some (matrixString (locations g));
       PB.voxelisation := Some
         {| PB.xresolution := Some (xResolution (voxelisation g));
            PB.yresolution := Some (yResolution (voxelisation g));
            PB.zresolution := Some (zResolution (voxelisation g));
            PB.supersample := Some (supersample (voxelisation g)) |};
       PB.noise := Some
         {| PB.inversegammaalpha := Some (inverseGammaAlpha (noise g));
            PB.inversegammabeta := Some (inverseGammaBeta (noise g)) |} |} in
  protobufToString pb.

(** [unserialise(s, g)]: the object [g] after the call, or [MalformedPayload]
    when [stringMatrix] throws. *)
Definition unserialise_GravSpec (s : list byte) (g : GravSpec) : option GravSpec :=
  let pb : PB.GravSpecProtobuf := ParseFromString s in
  let vpb := default PB.Voxelisation_clear (PB.voxelisation pb) in
  let npb := default PB.NoiseSpec_clear (PB.noise pb) in
  m ← stringMatrix (default [] (PB.locations pb)) (default 0 (PB.numlocations pb));
  Some {| locations := m;
          voxelisation :=
            {| xResolution := default 0 (PB.xresolution vpb);
               yResolution := default 0 (PB.yresolution vpb);
               zResolution := default 0 (PB.zresolution vpb);
               supersample := default 0 (PB.supersample vpb) |};
          noise :=
            {| inverseGammaAlpha := default dzero (PB.inversegammaalpha npb);
               inverseGammaBeta := default dzero (PB.inversegammabeta npb) |} |}.

Definition serialise_GravParams (g : GravParams) : list byte :=
  let pb := {| PB.returnsensordata := Some (returnSensorData g) |} in
  protobufToString pb.

Definition unserialise_GravParams (s : list byte) (g : GravParams) : option GravParams :=
  let pb : PB.GravParamsProtobuf := ParseFromString s in
  Some {| returnSensorData := default false (PB.returnsensordata pb) |}.

(** The message [serialise(const GravResults&)] fills in. *)
Definition GravResults_message (g : GravResults) : PB.GravResultsProtobuf :=
  let pb := {| PB.likelihood := Some (likelihood g);
               PB.numreadings := None; PB.readings := None |} in
  if 0 <? size (readings g) then
    {| PB.likelihood := PB.likelihood pb;
       PB.numreadings := Some (size (readings g));
       PB.readings := Some (matrixString (as_matrix (readings g))) |}
  else pb.

Definition serialise_GravResults (g : GravResults) : list byte :=
  protobufToString (GravResults_message g).

Definition unserialise_GravResults (s : list byte) (g : GravResults) : option GravResults :=
  let pb : PB.GravResultsProtobuf := ParseFromString s in
  let g := {| likelihood := default dzero (PB.likelihood pb); readings := readings g |} in
  if PB.has_readings pb then
    m ← stringMatrix (default [] (PB.readings pb)) (default 0 (PB.numreadings pb));
    v ← as_vector m;
    Some {| likelihood := likelihood g; readings := v |}
  else Some g.

End Serial.

End Grav.

(** ** The matrix codec *)

Module MatrixCodec.

(** Modelled from the spec: [matrixString] of [serial/utility.hpp] is
    missing.  Section 4.1: [encode(matrix) -> bytes]; the elements follow each
    other row by row at full precision, the shape is not carried, and an
    empty matrix encodes to no bytes. *)
Definition encode (m : MatrixXd) : list byte := flat_map double_bytes (coeffs m).

(** The doubles a byte string holds, eight bytes each. *)
Fixpoint doubles (s : list byte) : option (list double) :=
  match s with
  | [] => Some []
  | b0 :: b1 :: b2 :: b3 :: b4 :: b5 :: b6 :: b7 :: rest =>
      ds ← doubles rest; Some (Double b0 b1 b2 b3 b4 b5 b6 b7 :: ds)
  | _ => None
  end.

(** Modelled from the spec: [stringMatrix] of [serial/utility.hpp] is
    missing.  Section 4.1: [decode(bytes, rowCount) -> matrix]; a row count
    that does not match the number of elements the bytes hold fails with
    [MalformedPayload] (here [None]); no bytes decode to a matrix of no rows.
    The code calls [stringMatrix] with the bytes and the row count alone, for
    a location table and for a reading vector alike, so the column count is
    the one the bytes imply: the number of elements divided by the row count.
    Bytes that hold no element for no row decode to the 0 x 0 matrix. *)
Definition decode (s : list byte) (rowCount : N) : option MatrixXd :=
  cs ← doubles s;
  if rowCount =? 0 then
    match cs with [] => Some (Matrix 0 0 []) | _ => None end
  else if size cs mod rowCount =? 0 then Some (Matrix rowCount (size cs / rowCount) cs)
  else None.

End MatrixCodec.

(** ** A reference wire format

    One concrete, self-delimiting byte encoding of the messages: enough to
    show that the promise [parse_serialize] can be kept, and to run the
    serialisation code on actual strings. *)
Module RefWire.

Class Wire (A : Type) := {
  put : A → list byte;
  get : list byte → option (A * list byte) }.

(** Reading back what was written, whatever follows it. *)
Definition Wire_ok (A : Type) `{Wire A} : Prop :=
  ∀ (a : A) (k : list byte), get (put a ++ k) = Some (a, k).

Fixpoint put_positive (p : positive) : list byte :=
  match p with
  | xH => [x02]
  | xO p => x00 :: put_positive p
  | xI p => x01 :: put_positive p
  end.

Fixpoint get_positive (s : list byte) : option (positive * list byte) :=
  match s with
  | x02 :: k => Some (xH, k)
  | x00 :: s' => '(p, k) ← get_positive s'; Some (xO p, k)
  | x01 :: s' => '(p, k) ← get_positive s'; Some (xI p, k)
  | _ => None
  end.

Global Instance Wire_N : Wire N := {
  put n := match n with N0 => [x03] | Npos p => put_positive p end;
  get s := match s with
           | x03 :: k => Some (N0, k)
           | _ => '(p, k) ← get_positive s; Some (Npos p, k)
           end }.

Global Instance Wire_bool : Wire bool := {
  put b := [if b then x01 else x00];
  get s := match s with
           | x00 :: k => Some (false, k)
           | x01 :: k => Some (true, k)
           | _ => None
           end }.

Global Instance Wire_double : Wire double := {
  put d := double_bytes d;
  get s := d ← bytes_double (take 8 s); Some (d, drop 8 s) }.

Global Instance Wire_bytes : Wire (list byte) := {
  put l := put (size l) ++ l;
  get s := '(n, k) ← get s;
           if n <=? size k then Some (take (N.to_nat n) k, drop (N.to_nat n) k) else None }.

Global Instance Wire_option {A} `{Wire A} : Wire (option A) := {
  put o := match o with None => [x00] | Some a => x01 :: put a end;
  get s := match s with
           | x00 :: k => Some (None, k)
           | x01 :: s' => '(a, k) ← get s'; Some (Some a, k)
           | _ => None
           end }.

Global Instance Wire_prod {A B} `{Wire A, Wire B} : Wire (A * B) := {
  put ab := put ab.1 ++ put ab.2;
  get s := '(a, s') ← get s; '(b, k) ← get s'; Some ((a, b), k) }.

Global Instance Wire_Voxelisation : Wire PB.VoxelisationProtobuf := {
  put pb := put (PB.xresolution pb, PB.yresolution pb, PB.zresolution pb, PB.supersample pb);
  get s := '((x, y, z, u), k) ← get s; Some (PB.Build_VoxelisationProtobuf x y z u, k) }.

Global Instance Wire_NoiseSpec : Wire PB.NoiseSpecProtobuf := {
  put pb := put (PB.inversegammaalpha pb, PB.inversegammabeta pb);
  get s := '((a, b), k) ← get s; Some (PB.Build_NoiseSpecProtobuf a b, k) }.

Global Instance Wire_GravSpec : Wire PB.GravSpecProtobuf := {
  put pb := put (PB.numlocations pb, PB.locations pb, PB.voxelisation pb, PB.noise pb);
  get s := '((n, l, v, e), k) ← get s; Some (PB.Build_GravSpecProtobuf n l v e, k) }.

Global Instance Wire_GravParams : Wire PB.GravParamsProtobuf := {
  put pb := put (PB.returnsensordata pb);
  get s := '(r, k) ← get s; Some (PB.Build_GravParamsProtobuf r, k) }.

Global Instance Wire_GravResults : Wire PB.GravResultsProtobuf := {
  put pb := put (PB.likelihood pb, PB.numreadings pb, PB.readings pb);
  get s := '((l, n, r), k) ← get s; Some (PB.Build_GravResultsProtobuf l n r, k) }.

(** A message type with a wire encoding and a cleared value is a protobuf
    message: a string that does not parse leaves the cleared message. *)
Definition message {M} `{Wire M} (clear : M) : ProtobufMessage M := {|
  SerializeToString pb := put pb;
  ParseFromString s := match get s with Some (pb, _) => pb | None => clear end |}.

Definition GravSpec_wire : ProtobufMessage PB.GravSpecProtobuf := message PB.GravSpec_clear.
Definition GravParams_wire : ProtobufMessage PB.GravParamsProtobuf := message PB.GravParams_clear.
Definition GravResults_wire : ProtobufMessage PB.GravResultsProtobuf := message PB.GravResults_clear.

End RefWire.

(** ** Vocabulary of the statements *)

(** The coefficient [(l, c)] of a matrix, when it has one. *)
Definition entry (m : MatrixXd) (l c : N) : option double :=
  if (l <? rows m) && (c <? cols m) then coeffs m !! N.to_nat (l * cols m + c) else None.

(** A point [(x, y)] lies outside the horizontal extent of the world. *)
Definition out_of_bounds (world : WorldSpec) (x y : double) : bool :=
  dlt x (xBounds world).1 || dgt x (xBounds world).2
  || dlt y (yBounds world).1 || dgt y (yBounds world).2.

(** Row [l] of the location table lies outside the world. *)
Definition row_outside (world : WorldSpec) (m : MatrixXd) (l : N) : bool :=
  match entry m l 0, entry m l 1 with
  | Some x, Some y => out_of_bounds world x y
  | _, _ => false
  end.

(** [start, start + 1, ..., start + len - 1]. *)
Fixpoint indices (start : N) (len : nat) : list N :=
  match len with
  | O => []
  | S len' => start :: indices (start + 1) len'
  end.

(** The rows of the location table that lie outside the world, in order. *)
Definition rows_outside (world : WorldSpec) (m : MatrixXd) : list N :=
  List.filter (row_outside world m) (indices 0 (N.to_nat (rows m))).

(** The location table can be walked by [validateSensor]: the row count fits
    the [uint] loop counter, and every row has an x and a y coefficient. *)
Definition walkable (m : MatrixXd) : Prop :=
  rows m < 2 ^ 32 ∧ (rows m = 0 ∨ (2 <= cols m ∧ MatrixXd_wf m)).

(** The six checks of [validateSensor], as the code decides them. *)
Definition no_locations (spec : Mag.MagSpec) : bool := rows (Mag.locations spec) =? 0.
Definition bad_columns (spec : Mag.MagSpec) : bool := negb (uint (cols (Mag.locations spec)) =? 3).
Definition bad_voxelisation (spec : Mag.MagSpec) : bool :=
  (xResolution (Mag.voxelisation spec) <=? 0) || (yResolution (Mag.voxelisation spec) <=? 0)
  || (zResolution (Mag.voxelisation spec) <=? 0).
Definition bad_noise_alpha (spec : Mag.MagSpec) : bool :=
  dle (inverseGammaAlpha (Mag.noise spec)) dzero.
Definition readings_mismatch (spec : Mag.MagSpec) (result : Mag.MagResults) : bool :=
  negb (uint (rows (Mag.locations spec)) =? size (Mag.readings result)).

Definition when (b : bool) (line : string) : list string := if b then [line] else [].

(** The lines [validateSensor] logs, check by check. *)
Definition diagnostics (world : WorldSpec) (spec : Mag.MagSpec) (result : Mag.MagResults)
  : list string :=
  when (no_locations spec) Mag.msg_no_locations
  ++ when (bad_columns spec) Mag.msg_columns
  ++ (Mag.msg_out_of_bounds <$> rows_outside world (Mag.locations spec))
  ++ when (bad_voxelisation spec) Mag.msg_voxelisation
  ++ when (bad_noise_alpha spec) Mag.msg_noise
  ++ when (readings_mismatch spec result)
       (Mag.msg_readings (size (Mag.readings result)) (rows (Mag.locations spec))).

(** The value [validateSensor] returns: no check fired. *)
Definition passes (world : WorldSpec) (spec : Mag.MagSpec) (result : Mag.MagResults) : bool :=
  negb (no_locations spec)
  && negb (bad_columns spec)
  && forallb (λ l, negb (row_outside world (Mag.locations spec) l))
       (indices 0 (N.to_nat (rows (Mag.locations spec))))
  && negb (bad_voxelisation spec)
  && negb (bad_noise_alpha spec)
  && negb (readings_mismatch spec result).

(** The six generic checks as section 4.5 of the specification words them,
    and when each fails: no location; a column count other than 3; a location
    whose x or y is outside the world; a voxelisation resolution that is not
    strictly positive; a noise hyperparameter that is zero or negative; a
    reading count other than the location count. *)
Inductive generic_check :=
  | LocationCount | ColumnCount | WorldBounds
  | VoxelResolutions | NoisePositive | ReadingCount.

Definition generic_checks : list generic_check :=
  [LocationCount; ColumnCount; WorldBounds; VoxelResolutions; NoisePositive; ReadingCount].

Definition check_fails (world : WorldSpec) (spec : Mag.MagSpec) (result : Mag.MagResults)
    (c : generic_check) : bool :=
  match c with
  | LocationCount => rows (Mag.locations spec) =? 0
  | ColumnCount => negb (cols (Mag.locations spec) =? 3)
  | WorldBounds =>
      existsb (row_outside world (Mag.locations spec))
        (indices 0 (N.to_nat (rows (Mag.locations spec))))
  | VoxelResolutions =>
      (xResolution (Mag.voxelisation spec) =? 0) || (yResolution (Mag.voxelisation spec) =? 0)
      || (zResolution (Mag.voxelisation spec) =? 0)
  | NoisePositive =>
      dle (inverseGammaAlpha (Mag.noise spec)) dzero
      || dle (inverseGammaBeta (Mag.noise spec)) dzero
  | ReadingCount => negb (size (Mag.readings result) =? rows (Mag.locations spec))
  end.

(** The same six checks as the code makes them: the one on the noise reads
    [inverseGammaAlpha] alone. *)
Definition check_fires (world : WorldSpec) (spec : Mag.MagSpec) (result : Mag.MagResults)
    (c : generic_check) : bool :=
  match c with
  | NoisePositive => dle (inverseGammaAlpha (Mag.noise spec)) dzero
  | _ => check_fails world spec result c
  end.

(** The options hold, for every option a description declares, a value of
    the declared type: what parsing a configuration against the description
    leaves when every option is given. *)
Definition provides (vm : gmap string option_value) (options : list option_decl) : Prop :=
  ∀ d, d ∈ options → ∃ v, vm !! opt_name d = Some v ∧ type_of v = opt_type d.

(** The [int] range of a component of an [Eigen::Vector3i]. *)
Definition is_int (i : Z) : Prop := (- 2 ^ 31 <= i < 2 ^ 31)%Z.

(** The spec [parseSpec] builds from the values of the options and the
    location table. *)
Definition spec_of_options (locs : MatrixXd) (magRes : Vector3i) (super : N)
    (alpha beta : double) (magFld : Vector3d) : Mag.MagSpec :=
  {| Mag.locations := locs;
     Mag.voxelisation := Voxel (uint_of_int magRes.1.1) (uint_of_int magRes.1.2)
                           (uint_of_int magRes.2) super;
     Mag.noise := Noise alpha beta;
     Mag.backgroundField := magFld |}.

(** The reads of a [parseSpec] that runs to its end, in order. *)
Definition parseSpec_reads (path : string) : list access :=
  [ ReadOption "magnetism.sensorLocations"; ReadCsv path;
    ReadOption "magnetism.gridResolution"; ReadOption "magnetism.supersample";
    ReadOption "magnetism.noiseAlpha"; ReadOption "magnetism.noiseBeta";
    ReadOption "magnetism.magneticField" ].

(** A matrix codec gives a matrix back from its encoding and its row count. *)
Definition restores (matrixString : MatrixXd → list byte)
    (stringMatrix : list byte → N → option MatrixXd) (m : MatrixXd) : Prop :=
  stringMatrix (matrixString m) (rows m) = Some m.

(** Two specs that differ in nothing but the third column of the locations. *)
Definition same_but_z (s s' : Mag.MagSpec) : Prop :=
  rows (Mag.locations s) = rows (Mag.locations s')
  ∧ cols (Mag.locations s) = cols (Mag.locations s')
  ∧ (∀ l c, c ≠ 2 → entry (Mag.locations s) l c = entry (Mag.locations s') l c)
  ∧ Mag.voxelisation s = Mag.voxelisation s'
  ∧ Mag.noise s = Mag.noise s'
  ∧ Mag.backgroundField s = Mag.backgroundField s'.

(** ** Sample values

    The doubles of the scenarios of the specification, by their bit patterns,
    and the inputs those scenarios describe. *)
Definition d_1 : double := double_of_bits 0x3FF0000000000000.
Definition d_5 : double := double_of_bits 0x4014000000000000.
Definition d_10 : double := double_of_bits 0x4024000000000000.
Definition d_100 : double := double_of_bits 0x4059000000000000.
Definition d_200 : double := double_of_bits 0x4069000000000000.

(** World bounds x in [0, 100], y in [0, 100]. *)
Definition world_100 : WorldSpec := World (dzero, d_100) (dzero, d_100).

Definition sample_spec (locs : MatrixXd) (alpha beta : double) : Mag.MagSpec :=
  {| Mag.locations := locs;
     Mag.voxelisation := Voxel 10 10 10 0;
     Mag.noise := Noise alpha beta;
     Mag.backgroundField := (dzero, dzero, dzero) |}.

Definition sample_result (r : VectorXd) : Mag.MagResults :=
  {| Mag.likelihood := dzero; Mag.readings := r |}.

(** Gravity values to send: two locations and their two readings. *)
Definition sample_GravSpec : Grav.GravSpec :=
  {| Grav.locations := Matrix 2 3 [d_10; d_10; dzero; d_200; d_10; d_5];
     Grav.voxelisation := Voxel 10 10 10 0;
     Grav.noise := Noise d_1 d_5 |}.

Definition sample_GravParams : Grav.GravParams := {| Grav.returnSensorData := true |}.

Definition sample_GravResults : Grav.GravResults :=
  {| Grav.likelihood := d_5; Grav.readings := [d_1; d_10] |}.

(** A quiet NaN. *)
Definition d_nan : double := double_of_bits 0x7FF8000000000000.

(** A configuration that gives every magnetism option, with a grid
    resolution whose first component is negative, and the files it names. *)
Definition sample_options : gmap string option_value :=
  <["magnetism.enabled" := VBool true]>
  (<["magnetism.sensorLocations" := VString "locations.csv"]>
  (<["magnetism.sensorReadings" := VString "readings.csv"]>
  (<["magnetism.gridResolution" := VVector3i (-1, 5, 5)%Z]>
  (<["magnetism.noiseAlpha" := VDouble d_1]>
  (<["magnetism.noiseBeta" := VDouble d_5]>
  (<["magnetism.supersample" := VUint 0]>
  (<["magnetism.magneticField" := VVector3d (dzero, dzero, d_1)]> ∅))))))).

Definition sample_matrix_files (path : string) : option MatrixXd :=
  if decide (path = "locations.csv") then Some (Matrix 1 3 [d_10; d_10; dzero]) else None.

Definition sample_vector_files (path : string) : option VectorXd :=
  if decide (path = "readings.csv") then Some [d_1] else None.

(** Locations [[10,10,0],[200,10,5]]. *)
Definition locations_second_outside : MatrixXd :=
  Matrix 2 3 [d_10; d_10; dzero; d_200; d_10; d_5].

(** The same two places, flown at other heights. *)
Definition locations_second_outside_raised : MatrixXd :=
  Matrix 2 3 [d_10; d_10; d_100; d_200; d_10; d_200].

(** Three locations inside the world. *)
Definition locations_three_inside : MatrixXd :=
  Matrix 3 3 [d_10; d_10; dzero; d_5; d_10; dzero; d_10; d_5; dzero].

(** One location inside the world. *)
Definition locations_one_inside : MatrixXd := Matrix 1 3 [d_10; d_10; dzero].

(** ** The sample doubles are the numbers they are named after *)

Lemma sample_double_values :
  double_value dzero = S754_zero false
  ∧ double_value d_1 = binary_normalize 53 1024 1 0 false
  ∧ double_value d_5 = binary_normalize 53 1024 5 0 false
  ∧ double_value d_10 = binary_normalize 53 1024 10 0 false
  ∧ double_value d_100 = binary_normalize 53 1024 100 0 false
  ∧ double_value d_200 = binary_normalize 53 1024 200 0 false.
Proof. by vm_compute. Qed.

(** A comparison with a NaN is false, whichever way round. *)
Lemma compare_nan (d : double) :
  let nan := double_of_bits 0x7FF8000000000000 in
  dlt nan d = false ∧ dgt nan d = false ∧ dle nan d = false
  ∧ dlt d nan = false ∧ dgt d nan = false ∧ dle d nan = false.
Proof.
  cbv zeta. unfold dlt, dgt, dle.
  change (double_value (double_of_bits 0x7FF8000000000000)) with S754_nan.
  by destruct (double_value d).
Qed.

(** ** Properties of the effects *)

Lemma bind_returns {St A B} (m : Eff St A) (f : A → Eff St B) s a s' :
  m s = (inr a, s') → (m ≫= f) s = f a s'.
Proof. intros E. unfold mbind, Eff_bind. by rewrite E. Qed.

Lemma bind_fails {St A B} (m : Eff St A) (f : A → Eff St B) s e s' :
  m s = (inl e, s') → (m ≫= f) s = (inl e, s').
Proof. intros E. unfold mbind, Eff_bind. by rewrite E. Qed.

Lemma coeff_entry {St} (m : MatrixXd) l c (s : St) :
  coeff m l c s = (from_option inr (inl IndexOutOfRange) (entry m l c), s).
Proof.
  unfold coeff, entry. destruct ((l <? rows m) && (c <? cols m)); [|done].
  by destruct (coeffs m !! _).
Qed.

Lemma entry_in_range (m : MatrixXd) l c :
  MatrixXd_wf m → l < rows m → c < cols m → is_Some (entry m l c).
Proof.
  unfold entry, MatrixXd_wf. intros Hwf Hl Hc.
  assert ((l <? rows m) && (c <? cols m) = true) as ->.
  { apply andb_true_iff; split; by apply N.ltb_lt. }
  apply lookup_lt_is_Some. nia.
Qed.

Lemma entry_walkable (m : MatrixXd) l c :
  walkable m → l < rows m → c < 2 → is_Some (entry m l c).
Proof.
  intros [_ [H0|[Hc Hwf]]] Hl Hc2; [lia|].
  apply entry_in_range; [done|done|lia].
Qed.

Lemma entry_row (m : MatrixXd) l c x : entry m l c = Some x → l < rows m.
Proof.
  unfold entry. destruct (l <? rows m) eqn:E; [|done]. intros _. by apply N.ltb_lt.
Qed.

Lemma compare_entry {St} (m : MatrixXd) l c x (f : double → bool) (s : St) :
  entry m l c = Some x → (coeff m l c ≫= λ v, mret (f v)) s = (inr (f x), s).
Proof. intros E. erewrite bind_returns; [done|]. by rewrite coeff_entry, E. Qed.

Lemma orelse_true {St} (a b : Eff St bool) s s' :
  a s = (inr true, s') → orelse a b s = (inr true, s').
Proof. intros E. unfold orelse. by rewrite (bind_returns _ _ _ _ _ E). Qed.

Lemma orelse_false {St} (a b : Eff St bool) s s' :
  a s = (inr false, s') → orelse a b s = b s'.
Proof. intros E. unfold orelse. by rewrite (bind_returns _ _ _ _ _ E). Qed.

Lemma outside_entries world spec l x y s :
  entry (Mag.locations spec) l 0 = Some x →
  entry (Mag.locations spec) l 1 = Some y →
  Mag.outside world spec l s = (inr (out_of_bounds world x y), s).
Proof.
  intros Hx Hy. unfold Mag.outside, out_of_bounds.
  destruct (dlt x _) eqn:E1.
  { apply orelse_true. by rewrite (compare_entry _ _ _ x), E1. }
  erewrite orelse_false; [|by rewrite (compare_entry _ _ _ x), E1].
  destruct (dgt x _) eqn:E2.
  { apply orelse_true. by rewrite (compare_entry _ _ _ x), E2. }
  erewrite orelse_false; [|by rewrite (compare_entry _ _ _ x), E2].
  destruct (dlt y _) eqn:E3.
  { apply orelse_true. by rewrite (compare_entry _ _ _ y), E3. }
  erewrite orelse_false; [|by rewrite (compare_entry _ _ _ y), E3].
  by rewrite (compare_entry _ _ _ y).
Qed.

(** ** The loop over the locations *)

Lemma locations_loop_step fuel world spec l valid :
  Mag.locations_loop (S fuel) world spec l valid =
    if l <? rows (Mag.locations spec) then
      out ← Mag.outside world spec l;
      valid ← (if out : bool
               then _ ← Mag.LOG_ERROR (Mag.msg_out_of_bounds l); mret false
               else mret valid);
      Mag.locations_loop fuel world spec (uint (l + 1)) valid
    else mret valid.
Proof. reflexivity. Qed.

(** One guarded [LOG(ERROR)]: the flag drops and the line is appended when
    the condition holds, and nothing happens otherwise. *)
Lemma check_step (b : bool) (line : string) (valid : bool) (s : list string) :
  (if b then _ ← Mag.LOG_ERROR line; mret false else mret valid) s
  = (inr (valid && negb b), s ++ when b line).
Proof.
  destruct b; simpl.
  - by rewrite andb_false_r.
  - by rewrite andb_true_r, app_nil_r.
Qed.

Lemma row_outside_entries world m l x y :
  entry m l 0 = Some x → entry m l 1 = Some y →
  row_outside world m l = out_of_bounds world x y.
Proof. intros Hx Hy. unfold row_outside. by rewrite Hx, Hy. Qed.

Lemma locations_loop_walk world spec :
  walkable (Mag.locations spec) →
  ∀ k l fuel valid s,
    l + N.of_nat k = rows (Mag.locations spec) → (k < fuel)%nat →
    Mag.locations_loop fuel world spec l valid s
    = (inr (valid && forallb (λ i, negb (row_outside world (Mag.locations spec) i)) (indices l k)),
       s ++ (Mag.msg_out_of_bounds <$> List.filter (row_outside world (Mag.locations spec)) (indices l k))).
Proof.
  intros Hw k. induction k as [|k IH]; intros l fuel valid s Hl Hfuel;
    (destruct fuel as [|fuel]; [lia|]); rewrite locations_loop_step.
  - replace (l <? _) with false by (symmetry; apply N.ltb_ge; lia).
    simpl. by rewrite andb_true_r, app_nil_r.
  - replace (l <? _) with true by (symmetry; apply N.ltb_lt; lia).
    destruct (entry_walkable _ l 0 Hw) as [x Hx]; [lia..|].
    destruct (entry_walkable _ l 1 Hw) as [y Hy]; [lia..|].
    rewrite (bind_returns _ _ _ _ _ (outside_entries world spec l x y s Hx Hy)).
    rewrite (bind_returns _ _ _ _ _ (check_step _ _ _ _)).
    assert (uint (l + 1) = l + 1) as ->.
    { unfold uint. apply N.mod_small. destruct Hw as [Hr _]. lia. }
    rewrite IH by lia.
    simpl indices. simpl forallb. simpl List.filter.
    rewrite (row_outside_entries world _ l x y Hx Hy).
    destruct (out_of_bounds world x y); simpl.
    + by rewrite andb_false_r, <- app_assoc.
    + by rewrite andb_true_r, app_nil_r.
Qed.

(** On a walkable location table [validateSensor] returns, with the
    conjunction of its checks as value and their lines as log. *)
Lemma validateSensor_walkable world spec result :
  walkable (Mag.locations spec) →
  Mag.validateSensor world spec result
  = (inr (passes world spec result), diagnostics world spec result).
Proof.
  intros Hw. unfold Mag.validateSensor, Mag.validateSensor_body.
  rewrite (bind_returns _ _ _ _ _ (check_step _ _ _ _)).
  rewrite (bind_returns _ _ _ _ _ (check_step _ _ _ _)).
  erewrite bind_returns;
    [|apply (locations_loop_walk world spec Hw (N.to_nat (rows (Mag.locations spec)))); lia].
  rewrite (bind_returns _ _ _ _ _ (check_step _ _ _ _)).
  rewrite (bind_returns _ _ _ _ _ (check_step _ _ _ _)).
  rewrite (bind_returns _ _ _ _ _ (check_step _ _ _ _)).
  unfold passes, diagnostics, no_locations, bad_columns, bad_voxelisation,
    bad_noise_alpha, readings_mismatch.
  rewrite orb_diag, andb_true_l, app_nil_l. by rewrite <- !app_assoc.
Qed.

(** ** What the checks decide *)

Lemma elem_of_indices (i start : N) (len : nat) :
  i ∈ indices start len ↔ start <= i < start + N.of_nat len.
Proof.
  revert start. induction len as [|len IH]; intros start; simpl indices.
  - rewrite elem_of_nil. lia.
  - rewrite elem_of_cons, IH. lia.
Qed.

Lemma rows_outside_none world m :
  forallb (λ l, negb (row_outside world m l)) (indices 0 (N.to_nat (rows m))) = true
  ↔ Mag.msg_out_of_bounds <$> rows_outside world m = [].
Proof.
  unfold rows_outside.
  induction (indices 0 (N.to_nat (rows m))) as [|i rest IH]; [done|].
  simpl forallb. simpl List.filter.
  destruct (row_outside world m i); [|done]. split; [done|discriminate].
Qed.

Lemma passes_no_diagnostics world spec result :
  passes world spec result = true ↔ diagnostics world spec result = [].
Proof.
  unfold passes, diagnostics.
  rewrite !andb_true_iff, !negb_true_iff, !app_nil, rows_outside_none.
  unfold when.
  destruct (no_locations spec), (bad_columns spec), (bad_voxelisation spec),
    (bad_noise_alpha spec), (readings_mismatch spec result);
    intuition congruence.
Qed.

Lemma row_outside_fails world spec result l :
  l < rows (Mag.locations spec) →
  row_outside world (Mag.locations spec) l = true →
  passes world spec result = false
  ∧ Mag.msg_out_of_bounds l ∈ diagnostics world spec result.
Proof.
  intros Hl Hout.
  assert (l ∈ indices 0 (N.to_nat (rows (Mag.locations spec)))) as Hin
    by (apply elem_of_indices; lia).
  split.
  - unfold passes.
    destruct (forallb _ _) eqn:Hall; [|by rewrite !andb_false_r].
    rewrite forallb_forall in Hall.
    apply list_elem_of_In, Hall in Hin. by rewrite Hout in Hin.
  - unfold diagnostics. rewrite !elem_of_app. right; right; left.
    apply list_elem_of_fmap. exists l. split; [done|].
    unfold rows_outside. apply list_elem_of_In, filter_In. by rewrite <- list_elem_of_In.
Qed.

Lemma readings_mismatch_fails world spec result :
  readings_mismatch spec result = true →
  passes world spec result = false
  ∧ Mag.msg_readings (size (Mag.readings result)) (rows (Mag.locations spec))
      ∈ diagnostics world spec result.
Proof.
  intros H. split.
  - unfold passes. by rewrite H, andb_false_r.
  - unfold diagnostics. rewrite H, !elem_of_app. do 5 right. apply list_elem_of_here.
Qed.

Lemma no_locations_fails world spec result :
  no_locations spec = true →
  passes world spec result = false
  ∧ head (diagnostics world spec result) = Some Mag.msg_no_locations.
Proof.
  intros H. split.
  - unfold passes. by rewrite H.
  - unfold diagnostics. by rewrite H.
Qed.

Lemma bad_noise_alpha_fails world spec result :
  bad_noise_alpha spec = true →
  passes world spec result = false ∧ Mag.msg_noise ∈ diagnostics world spec result.
Proof.
  intros H. split.
  - unfold passes. by rewrite H, andb_false_r.
  - unfold diagnostics. rewrite H, !elem_of_app. do 4 right. left. apply list_elem_of_here.
Qed.

(** ** What holds of every call, returning or not *)

Lemma bind_never_true {St A} (m : Eff St A) (f : A → Eff St bool) s :
  (∀ a s', (f a s').1 ≠ inr true) → ((m ≫= f) s).1 ≠ inr true.
Proof.
  intros Hf. unfold mbind, Eff_bind. destruct (m s) as [[e|a] s']; [done|apply Hf].
Qed.

Lemma bind_false_never_true {St} (m : Eff St bool) (f : bool → Eff St bool) s :
  (m s).1 ≠ inr true → (∀ s', (f false s').1 ≠ inr true) → ((m ≫= f) s).1 ≠ inr true.
Proof.
  intros Hm Hf. unfold mbind, Eff_bind. destruct (m s) as [[e|[]] s']; [done|done|apply Hf].
Qed.

(** Once [valid] is false the loop cannot make it true. *)
Lemma locations_loop_stays_false world spec :
  ∀ fuel l s, (Mag.locations_loop fuel world spec l false s).1 ≠ inr true.
Proof.
  intros fuel. induction fuel as [|fuel IH]; intros l s; [done|].
  rewrite locations_loop_step. destruct (l <? _); [|done].
  apply bind_never_true. intros out s'.
  rewrite (bind_returns _ _ _ _ _ (check_step _ _ _ _)). apply IH.
Qed.

(** A row that lies outside the world is met by the loop before it can end,
    and makes [valid] false. *)
Lemma locations_loop_meets world spec l0 x y :
  entry (Mag.locations spec) l0 0 = Some x →
  entry (Mag.locations spec) l0 1 = Some y →
  out_of_bounds world x y = true →
  ∀ fuel l valid s, l <= l0 → (Mag.locations_loop fuel world spec l valid s).1 ≠ inr true.
Proof.
  intros Hx Hy Hout fuel. pose proof (entry_row _ _ _ _ Hx) as Hrow.
  induction fuel as [|fuel IH]; intros l valid s Hl; [done|].
  rewrite locations_loop_step.
  replace (l <? _) with true by (symmetry; apply N.ltb_lt; lia).
  destruct (decide (l = l0)) as [->|Hne].
  - rewrite (bind_returns _ _ _ _ _ (outside_entries world spec l0 x y s Hx Hy)).
    rewrite (bind_returns _ _ _ _ _ (check_step _ _ _ _)).
    rewrite Hout, andb_false_r. apply locations_loop_stays_false.
  - apply bind_never_true. intros out s'.
    rewrite (bind_returns _ _ _ _ _ (check_step _ _ _ _)).
    apply IH. unfold uint. etrans; [apply N.Div0.mod_le|lia].
Qed.

(** With [2^32] rows or more the [uint] counter never reaches the row count:
    the loop does not end, whatever fuel it is given. *)
Lemma locations_loop_never_ends world spec :
  2 ^ 32 <= rows (Mag.locations spec) →
  MatrixXd_wf (Mag.locations spec) → 2 <= cols (Mag.locations spec) →
  ∀ fuel l valid s, l < 2 ^ 32 →
    (Mag.locations_loop fuel world spec l valid s).1 = inl OutOfFuel.
Proof.
  intros Hrows Hwf Hcols fuel.
  induction fuel as [|fuel IH]; intros l valid s Hl; [done|].
  rewrite locations_loop_step.
  replace (l <? _) with true by (symmetry; apply N.ltb_lt; lia).
  destruct (entry_in_range (Mag.locations spec) l 0 Hwf) as [x Hx]; [lia..|].
  destruct (entry_in_range (Mag.locations spec) l 1 Hwf) as [y Hy]; [lia..|].
  rewrite (bind_returns _ _ _ _ _ (outside_entries world spec l x y s Hx Hy)).
  rewrite (bind_returns _ _ _ _ _ (check_step _ _ _ _)).
  apply IH. unfold uint. by apply N.mod_lt.
Qed.

Lemma locations_loop_never_returns world spec :
  2 ^ 32 <= rows (Mag.locations spec) →
  ∀ fuel l valid s b, l < 2 ^ 32 →
    (Mag.locations_loop fuel world spec l valid s).1 ≠ inr b.
Proof.
  intros Hrows fuel. induction fuel as [|fuel IH]; intros l valid s b Hl; [done|].
  rewrite locations_loop_step.
  replace (l <? _) with true by (symmetry; apply N.ltb_lt; lia).
  unfold mbind at 1, Eff_bind at 1.
  destruct (Mag.outside world spec l s) as [[e|out] s']; [done|].
  rewrite (bind_returns _ _ _ _ _ (check_step _ _ _ _)).
  apply IH. unfold uint. by apply N.mod_lt.
Qed.

(** So a table of [2^32] rows or more is one [validateSensor] does not
    return from. *)
Lemma validateSensor_too_many_rows world spec result b :
  2 ^ 32 <= rows (Mag.locations spec) →
  (Mag.validateSensor world spec result).1 ≠ inr b.
Proof.
  intros Hrows. unfold Mag.validateSensor, Mag.validateSensor_body.
  rewrite (bind_returns _ _ _ _ _ (check_step _ _ _ _)).
  rewrite (bind_returns _ _ _ _ _ (check_step _ _ _ _)).
  unfold mbind at 1, Eff_bind at 1.
  pose proof (locations_loop_never_returns world spec Hrows
                (S (N.to_nat (rows (Mag.locations spec)))) 0) as Hloop.
  destruct (Mag.locations_loop _ world spec 0 _ _) as [[e|v] s'] eqn:E; [done|].
  exfalso. eapply Hloop; [|by rewrite E]. lia.
Qed.

(** The three checks after the loop, entered with [valid] false, end false. *)
Lemma checks_stay_false (b1 b2 b3 : bool) (l1 l2 l3 : string) (s : list string) :
  ((valid ← (if b1 then _ ← Mag.LOG_ERROR l1; mret false else mret false);
    valid ← (if b2 then _ ← Mag.LOG_ERROR l2; mret false else mret valid);
    valid ← (if b3 then _ ← Mag.LOG_ERROR l3; mret false else mret valid);
    mret valid) s).1 ≠ inr true.
Proof.
  rewrite (bind_returns _ _ _ _ _ (check_step _ _ _ _)).
  rewrite (bind_returns _ _ _ _ _ (check_step _ _ _ _)).
  rewrite (bind_returns _ _ _ _ _ (check_step _ _ _ _)).
  done.
Qed.

(** A row outside the world: [validateSensor] does not return true, on any
    input. *)
Lemma validateSensor_outside_never_true world spec result l x y :
  entry (Mag.locations spec) l 0 = Some x →
  entry (Mag.locations spec) l 1 = Some y →
  out_of_bounds world x y = true →
  (Mag.validateSensor world spec result).1 ≠ inr true.
Proof.
  intros Hx Hy Hout. unfold Mag.validateSensor, Mag.validateSensor_body.
  apply bind_never_true. intros v1 s1.
  apply bind_never_true. intros v2 s2.
  apply bind_false_never_true.
  - apply (locations_loop_meets world spec l x y Hx Hy Hout). lia.
  - intros s3. apply checks_stay_false.
Qed.

(** A reading count that is not the row count, as the code compares them:
    [validateSensor] does not return true, on any input. *)
Lemma validateSensor_mismatch_never_true world spec result :
  readings_mismatch spec result = true →
  (Mag.validateSensor world spec result).1 ≠ inr true.
Proof.
  intros Hm. unfold Mag.validateSensor, Mag.validateSensor_body.
  apply bind_never_true. intros v1 s1.
  apply bind_never_true. intros v2 s2.
  apply bind_never_true. intros v3 s3.
  apply bind_never_true. intros v4 s4.
  apply bind_never_true. intros v5 s5.
  unfold readings_mismatch in Hm. rewrite Hm.
  by erewrite bind_returns; [|reflexivity].
Qed.

(** ** Claims on [validateSensor] *)

(** C6 — a location whose x lies outside [world.xBounds] or whose y lies
    outside [world.yBounds] keeps [validateSensor] from returning true on any
    input, and on a location table it can walk the call returns false and
    logs the row, counted from one.  In the scenario of the specification
    (world [0,100] x [0,100], locations [[10,10,0],[200,10,5]], voxelisation
    (10,10,10), noise (1.0,1.0), two readings) the call returns false and the
    log holds the line of location 2 and nothing else: no other check fires. *)
Theorem validateSensor_out_of_bounds :
  (∀ world spec result l x y,
     entry (Mag.locations spec) l 0 = Some x →
     entry (Mag.locations spec) l 1 = Some y →
     dlt x (xBounds world).1 = true ∨ dgt x (xBounds world).2 = true
     ∨ dlt y (yBounds world).1 = true ∨ dgt y (yBounds world).2 = true →
     (Mag.validateSensor world spec result).1 ≠ inr true
     ∧ (walkable (Mag.locations spec) →
        ∃ log, Mag.validateSensor world spec result = (inr false, log)
               ∧ Mag.msg_out_of_bounds l ∈ log))
  ∧ Mag.validateSensor world_100 (sample_spec locations_second_outside d_1 d_1)
      (sample_result [d_1; d_1])
    = (inr false, ["input: magnetism location 2 is out of world bounds"]).
Proof.
  split; [|by vm_compute].
  intros world spec result l x y Hx Hy Hout.
  assert (out_of_bounds world x y = true) as Hxy.
  { unfold out_of_bounds. rewrite !orb_true_iff. tauto. }
  split; [by eapply validateSensor_outside_never_true|]. intros Hw.
  assert (row_outside world (Mag.locations spec) l = true) as Hrow
    by by rewrite (row_outside_entries _ _ _ x y Hx Hy).
  destruct (row_outside_fails world spec result l (entry_row _ _ _ _ Hx) Hrow) as [Hp Hd].
  exists (diagnostics world spec result).
  by rewrite validateSensor_walkable, Hp.
Qed.

Lemma validateSensor_out_of_bounds_witness :
  (Mag.validateSensor world_100 (sample_spec locations_second_outside d_1 d_1)
     (sample_result [d_1; d_1])).1 ≠ inr true
  ∧ ∃ log, Mag.validateSensor world_100 (sample_spec locations_second_outside d_1 d_1)
             (sample_result [d_1; d_1]) = (inr false, log)
           ∧ Mag.msg_out_of_bounds 1 ∈ log.
Proof.
  destruct (proj1 validateSensor_out_of_bounds world_100
              (sample_spec locations_second_outside d_1 d_1) (sample_result [d_1; d_1])
              1 d_200 d_10) as [Hnever Hfalse].
  - reflexivity.
  - reflexivity.
  - right. left. by vm_compute.
  - split; [done|]. apply Hfalse.
    split; [done|]. right. split; [done|reflexivity].
Defined.

(** C7 — when the number of readings differs from the number of location
    rows, [validateSensor] does not return true on any input, and on a
    location table it can walk it returns false and logs the mismatch line,
    which carries both counts; three rows against two readings logs "(2)" and
    "(3)". *)
Theorem validateSensor_reading_count :
  (∀ world spec result,
     size (Mag.readings result) ≠ rows (Mag.locations spec) →
     (Mag.validateSensor world spec result).1 ≠ inr true
     ∧ (walkable (Mag.locations spec) →
        ∃ log, Mag.validateSensor world spec result = (inr false, log)
               ∧ ("input: different number of readings for magnetism results ("
                  +:+ pretty (size (Mag.readings result))
                  +:+ ") to location specified. Remove or add more locations ("
                  +:+ pretty (rows (Mag.locations spec)) +:+ ").") ∈ log))
  ∧ Mag.validateSensor world_100 (sample_spec locations_three_inside d_1 d_1)
      (sample_result [d_1; d_1])
    = (inr false,
       ["input: different number of readings for magnetism results (2) to location specified. Remove or add more locations (3)."]).
Proof.
  split; [|by vm_compute].
  intros world spec result Hne.
  assert (rows (Mag.locations spec) < 2 ^ 32 → readings_mismatch spec result = true) as Hm.
  { intros Hr. unfold readings_mismatch, uint. rewrite N.mod_small by done.
    apply negb_true_iff, N.eqb_neq. congruence. }
  split.
  - destruct (decide (rows (Mag.locations spec) < 2 ^ 32)) as [Hr|Hr].
    + by apply validateSensor_mismatch_never_true, Hm.
    + apply validateSensor_too_many_rows. lia.
  - intros Hw.
    destruct (readings_mismatch_fails world spec result (Hm (proj1 Hw))) as [Hp Hd].
    exists (diagnostics world spec result).
    by rewrite validateSensor_walkable, Hp.
Qed.

Lemma validateSensor_reading_count_witness :
  (Mag.validateSensor world_100 (sample_spec locations_three_inside d_1 d_1)
     (sample_result [d_1; d_1])).1 ≠ inr true
  ∧ ∃ log, Mag.validateSensor world_100 (sample_spec locations_three_inside d_1 d_1)
             (sample_result [d_1; d_1]) = (inr false, log)
           ∧ ("input: different number of readings for magnetism results ("
              +:+ pretty (size [d_1; d_1])
              +:+ ") to location specified. Remove or add more locations ("
              +:+ pretty 3 +:+ ").") ∈ log.
Proof.
  destruct (proj1 validateSensor_reading_count world_100
              (sample_spec locations_three_inside d_1 d_1) (sample_result [d_1; d_1]))
    as [Hnever Hfalse].
  - by vm_compute.
  - split; [done|]. apply Hfalse.
    split; [done|]. right. split; [done|reflexivity].
Defined.

Lemma bind_ext {St A B} (m m' : Eff St A) (f f' : A → Eff St B) s :
  m s = m' s → (∀ a s', f a s' = f' a s') → (m ≫= f) s = (m' ≫= f') s.
Proof.
  intros Hm Hf. unfold mbind, Eff_bind. rewrite Hm.
  by destruct (m' s) as [[e|a] s'].
Qed.

Lemma coeff_from_entry {St} (m : MatrixXd) l c :
  coeff (St := St) m l c = from_option mret (raise IndexOutOfRange) (entry m l c).
Proof.
  unfold coeff, entry. destruct ((l <? rows m) && (c <? cols m)); [|done].
  by destruct (coeffs m !! _).
Qed.

Lemma outside_same_but_z world s s' l :
  same_but_z s s' → Mag.outside world s l = Mag.outside world s' l.
Proof.
  intros (_ & _ & He & _). unfold Mag.outside.
  by rewrite !coeff_from_entry, !(He l 0), !(He l 1).
Qed.

Lemma locations_loop_same_but_z world s s' :
  same_but_z s s' →
  ∀ fuel l valid st,
    Mag.locations_loop fuel world s l valid st = Mag.locations_loop fuel world s' l valid st.
Proof.
  intros Hz fuel. induction fuel as [|fuel IH]; intros l valid st; [done|].
  rewrite !locations_loop_step, (outside_same_but_z world s s' l Hz).
  destruct Hz as (<- & _). destruct (l <? _); [|done].
  apply bind_ext; [done|]. intros out st'.
  apply bind_ext; [done|]. intros valid' st''. apply IH.
Qed.

(** C9 — two inputs that differ only in the third (z) column of the locations
    get the same answer from [validateSensor]: the same outcome, and the same
    lines logged. *)
Theorem validateSensor_ignores_z :
  ∀ world s s' result,
    same_but_z s s' →
    Mag.validateSensor world s result = Mag.validateSensor world s' result.
Proof.
  intros world s s' result Hz.
  pose proof (locations_loop_same_but_z world s s' Hz) as Hloop.
  destruct Hz as (Hr & Hc & _ & Hv & Hn & _).
  unfold Mag.validateSensor, Mag.validateSensor_body.
  rewrite Hr, Hc, Hv, Hn.
  apply bind_ext; [done|]. intros v1 s1.
  apply bind_ext; [done|]. intros v2 s2.
  apply bind_ext; [apply Hloop|]. done.
Qed.

Lemma validateSensor_ignores_z_witness :
  Mag.validateSensor world_100 (sample_spec locations_second_outside d_1 d_1)
    (sample_result [d_1; d_1])
  = Mag.validateSensor world_100 (sample_spec locations_second_outside_raised d_1 d_1)
      (sample_result [d_1; d_1]).
Proof.
  apply validateSensor_ignores_z.
  repeat split.
  intros l c Hc. unfold entry. simpl rows. simpl cols.
  destruct (l <? 2) eqn:El; [|done]. destruct (c <? 3) eqn:Ec; [|done].
  apply N.ltb_lt in El, Ec.
  assert (l = 0 ∨ l = 1) as [-> | ->] by lia;
    (assert (c = 0 ∨ c = 1) as [-> | ->] by lia); reflexivity.
Defined.

Lemma locations_loop_beta_unread world locs vox alpha beta beta' field :
  ∀ fuel l valid st,
    Mag.locations_loop fuel world
      {| Mag.locations := locs; Mag.voxelisation := vox;
         Mag.noise := Noise alpha beta; Mag.backgroundField := field |} l valid st
    = Mag.locations_loop fuel world
        {| Mag.locations := locs; Mag.voxelisation := vox;
           Mag.noise := Noise alpha beta'; Mag.backgroundField := field |} l valid st.
Proof.
  intros fuel. induction fuel as [|fuel IH]; intros l valid st; [done|].
  rewrite !locations_loop_step. cbn [Mag.locations]. destruct (l <? _); [|done].
  apply bind_ext; [done|]. intros out st'.
  apply bind_ext; [done|]. intros valid' st''. apply IH.
Qed.

(** X1 — the noise scale [inverseGammaBeta] is never read: any two specs that
    differ only there get the same answer from [validateSensor], the same
    outcome and the same log, on every input. *)
Lemma validateSensor_beta_unread world locs vox alpha beta beta' field result :
  Mag.validateSensor world
    {| Mag.locations := locs; Mag.voxelisation := vox;
       Mag.noise := Noise alpha beta; Mag.backgroundField := field |} result
  = Mag.validateSensor world
      {| Mag.locations := locs; Mag.voxelisation := vox;
         Mag.noise := Noise alpha beta'; Mag.backgroundField := field |} result.
Proof.
  unfold Mag.validateSensor, Mag.validateSensor_body.
  apply bind_ext; [done|]. intros v1 s1.
  apply bind_ext; [done|]. intros v2 s2.
  apply bind_ext; [apply locations_loop_beta_unread|done].
Qed.

(** A non-positive [inverseGammaAlpha] is refused. *)
Lemma validateSensor_alpha_checked world spec result :
  walkable (Mag.locations spec) →
  dle (inverseGammaAlpha (Mag.noise spec)) dzero = true →
  ∃ log, Mag.validateSensor world spec result = (inr false, log) ∧ Mag.msg_noise ∈ log.
Proof.
  intros Hw Ha. destruct (bad_noise_alpha_fails world spec result Ha) as [Hp Hd].
  exists (diagnostics world spec result). by rewrite validateSensor_walkable, Hp.
Qed.

(** C1 — the defect: with noise (1.0, 0.0), hence [inverseGammaBeta <= 0], and
    every other field valid, [validateSensor] returns true and logs nothing.
    The condition of the noise check reads [inverseGammaAlpha] twice. *)
Theorem validateSensor_accepts_zero_beta :
  dle (inverseGammaBeta (Mag.noise (sample_spec locations_one_inside d_1 dzero))) dzero = true
  ∧ Mag.validateSensor world_100 (sample_spec locations_one_inside d_1 dzero)
      (sample_result [d_1])
    = (inr true, []).
Proof. split; by vm_compute. Qed.

(** The lines of different checks are different lines. *)
Lemma diagnostic_lines_distinct (l nreadings nlocations : N) :
  NoDup [Mag.msg_no_locations; Mag.msg_columns; Mag.msg_out_of_bounds l;
         Mag.msg_voxelisation; Mag.msg_noise; Mag.msg_readings nreadings nlocations].
Proof.
  unfold Mag.msg_out_of_bounds, Mag.msg_readings.
  repeat (apply NoDup_cons; split;
          [rewrite ?not_elem_of_cons; repeat split;
             first [apply not_elem_of_nil | cbn [String.append]; discriminate]|]).
  apply NoDup_nil_2.
Qed.

(** X4 — every check is made whatever the earlier ones found: on a location
    table it can walk, each check of [validateSensor] that fires has its line
    in the log, and each row outside the world has a line of its own. *)
Lemma validateSensor_reports_each world spec result :
  walkable (Mag.locations spec) →
  ∃ log, (Mag.validateSensor world spec result).2 = log
    ∧ (no_locations spec = true → Mag.msg_no_locations ∈ log)
    ∧ (bad_columns spec = true → Mag.msg_columns ∈ log)
    ∧ (∀ l, l < rows (Mag.locations spec) →
            row_outside world (Mag.locations spec) l = true → Mag.msg_out_of_bounds l ∈ log)
    ∧ (bad_voxelisation spec = true → Mag.msg_voxelisation ∈ log)
    ∧ (bad_noise_alpha spec = true → Mag.msg_noise ∈ log)
    ∧ (readings_mismatch spec result = true →
       Mag.msg_readings (size (Mag.readings result)) (rows (Mag.locations spec)) ∈ log).
Proof.
  intros Hw. exists (diagnostics world spec result).
  rewrite validateSensor_walkable by done. split; [done|].
  repeat split.
  - intros H. unfold diagnostics. rewrite H. apply list_elem_of_here.
  - intros H. unfold diagnostics. rewrite H, !elem_of_app. right; left. apply list_elem_of_here.
  - intros l Hl H. by apply row_outside_fails.
  - intros H. unfold diagnostics. rewrite H, !elem_of_app. do 3 right. left. apply list_elem_of_here.
  - intros H. by apply bad_noise_alpha_fails.
  - intros H. by apply readings_mismatch_fails.
Qed.

Lemma forallb_negb_existsb {A} (f : A → bool) (l : list A) :
  forallb (λ a, negb (f a)) l = negb (existsb f l).
Proof. induction l as [|a l IH]; [done|]. simpl. rewrite IH. by destruct (f a). Qed.

(** X3 — on a location table it can walk, with a column count that fits a
    [uint], [validateSensor] returns false exactly when one of the six checks
    fires: no row, a column count other than 3, a row outside the world, a
    resolution that is 0, [inverseGammaAlpha <= 0], or a reading count other
    than the row count. *)
Lemma validateSensor_false_iff world spec result :
  walkable (Mag.locations spec) → cols (Mag.locations spec) < 2 ^ 32 →
  (Mag.validateSensor world spec result).1 = inr false
  ↔ ∃ c, c ∈ generic_checks ∧ check_fires world spec result c = true.
Proof.
  intros Hw Hc. rewrite validateSensor_walkable by done. cbn [fst].
  assert (passes world spec result
          = negb (existsb (check_fires world spec result) generic_checks)) as ->.
  { unfold passes, generic_checks, no_locations, bad_columns, bad_voxelisation,
      bad_noise_alpha, readings_mismatch, uint.
    rewrite !N.mod_small by (done || apply Hw).
    rewrite forallb_negb_existsb.
    cbn [existsb check_fires check_fails].
    rewrite (N.eqb_sym (size _)).
    assert (∀ n : N, (n <=? 0) = (n =? 0)) as Hle by (by intros []).
    rewrite !Hle.
    generalize (existsb (row_outside world (Mag.locations spec))
                  (indices 0 (N.to_nat (rows (Mag.locations spec))))).
    generalize (dle (inverseGammaAlpha (Mag.noise spec)) dzero).
    repeat match goal with |- context [N.eqb ?a ?b] => generalize (N.eqb a b) end.
    clear. intros. repeat match goal with b : bool |- _ => destruct b end; reflexivity. }
  assert (∀ b : bool, (inr (negb b) : failure + bool) = inr false ↔ b = true) as ->.
  { intros []; split; intros H; first [reflexivity | discriminate H]. }
  rewrite existsb_exists.
  split; intros (c & Hin & Hfire); exists c; (split; [by apply list_elem_of_In|exact Hfire]).
Qed.

(** C3 — the defect, on the equivalence: with noise (1.0, 0.0) the check on
    the noise hyperparameters fails as the specification words it, and
    [validateSensor] returns true with an empty log, so "false exactly when a
    check fails" does not hold there. *)
Theorem validateSensor_misses_noise_check :
  let world := world_100 in
  let spec := sample_spec locations_one_inside d_1 dzero in
  let result := sample_result [d_1] in
  check_fails world spec result NoisePositive = true
  ∧ Mag.validateSensor world spec result = (inr true, [])
  ∧ ¬ ((Mag.validateSensor world spec result).1 = inr false
       ↔ ∃ c, c ∈ generic_checks ∧ check_fails world spec result c = true).
Proof.
  assert (Mag.validateSensor world_100 (sample_spec locations_one_inside d_1 dzero)
            (sample_result [d_1]) = (inr true, [])) as Hrun by (by vm_compute).
  cbv zeta. split; [by vm_compute|]. split; [done|].
  rewrite Hrun. intros [_ H]. discriminate H.
  exists NoisePositive. split; [|by vm_compute].
  unfold generic_checks. rewrite !elem_of_cons. tauto.
Qed.

(** ** Claims on the parse functions *)

Lemma not_enabled (sensorsEnabled : gset ForwardModel) :
  MAGNETICS ∉ sensorsEnabled → bool_decide (MAGNETICS ∈ sensorsEnabled) = false.
Proof. intros H. by apply bool_decide_eq_false. Qed.

Lemma parseSpec_skips iv inoise ifield files
    (vm : gmap string option_value) (sensorsEnabled : gset ForwardModel) trace :
  MAGNETICS ∉ sensorsEnabled →
  Mag.parseSpec iv inoise ifield files vm sensorsEnabled trace
  = (inr (Mag.MagSpec_default iv inoise ifield), trace).
Proof. intros Hoff. unfold Mag.parseSpec. by rewrite (not_enabled _ Hoff). Qed.

Lemma parseSensorReadings_skips ilik files
    (vm : gmap string option_value) (sensorsEnabled : gset ForwardModel) trace :
  MAGNETICS ∉ sensorsEnabled →
  Mag.parseSensorReadings ilik files vm sensorsEnabled trace
  = (inr (Mag.MagResults_default ilik), trace).
Proof. intros Hoff. unfold Mag.parseSensorReadings. by rewrite (not_enabled _ Hoff). Qed.

(** C5 — with [MAGNETICS] not in the enabled set, [parseSpec] returns the
    default-constructed [MagSpec], whose locations have no rows, and touches
    nothing on the way: the trace of option and file reads comes back as it
    went in, whatever the options and the files are. *)
Theorem parseSpec_disabled :
  ∀ initial_voxelisation initial_noise initial_backgroundField matrix_files
    (vm : gmap string option_value) (sensorsEnabled : gset ForwardModel) (trace : list access),
    MAGNETICS ∉ sensorsEnabled →
    Mag.parseSpec initial_voxelisation initial_noise initial_backgroundField matrix_files
      vm sensorsEnabled trace
    = (inr (Mag.MagSpec_default initial_voxelisation initial_noise initial_backgroundField),
       trace)
    ∧ rows (Mag.locations
              (Mag.MagSpec_default initial_voxelisation initial_noise initial_backgroundField))
      = 0.
Proof.
  intros iv inoise ifield files vm sensorsEnabled trace Hoff.
  split; [by apply parseSpec_skips|done].
Qed.

Lemma parseSpec_disabled_witness :
  Mag.parseSpec (Voxel 0 0 0 0) (Noise dzero dzero) (dzero, dzero, dzero) (λ _, None)
    ∅ {[ GRAVITY ]} []
  = (inr (Mag.MagSpec_default (Voxel 0 0 0 0) (Noise dzero dzero) (dzero, dzero, dzero)), [])
  ∧ rows (Mag.locations
            (Mag.MagSpec_default (Voxel 0 0 0 0) (Noise dzero dzero) (dzero, dzero, dzero)))
    = 0.
Proof.
  apply parseSpec_disabled.
  by apply (bool_decide_unpack (MAGNETICS ∉ ({[ GRAVITY ]} : gset ForwardModel))).
Defined.

(** An enabled sensor does go to the options, and stops at the first one
    that is missing. *)
Lemma parseSpec_enabled_missing_option iv inoise ifield files
    (vm : gmap string option_value) (sensorsEnabled : gset ForwardModel) trace :
  MAGNETICS ∈ sensorsEnabled →
  vm !! "magnetism.sensorLocations" = None →
  Mag.parseSpec iv inoise ifield files vm sensorsEnabled trace
  = (inl (BadAnyCast "magnetism.sensorLocations"),
     trace ++ [ReadOption "magnetism.sensorLocations"]).
Proof.
  intros Hon Hmiss. unfold Mag.parseSpec. rewrite bool_decide_eq_true_2 by done.
  apply bind_fails. unfold as_string.
  rewrite (bind_returns _ _ trace () (trace ++ [ReadOption "magnetism.sensorLocations"]))
    by done.
  by rewrite Hmiss.
Qed.

(** C8 (as the code has it) — for a disabled sensor [parseSpec] and
    [parseSensorReadings] return the empty values without reading anything,
    and [validateSensor] applied to them returns false: its first check fires
    on the empty location table and logs "no magnetism locations specified". *)
Theorem validateSensor_refuses_empty :
  ∀ initial_voxelisation initial_noise initial_backgroundField initial_likelihood
    matrix_files vector_files (vm : gmap string option_value)
    (sensorsEnabled : gset ForwardModel) world,
    MAGNETICS ∉ sensorsEnabled →
    ∃ spec result log,
      Mag.parseSpec initial_voxelisation initial_noise initial_backgroundField matrix_files
        vm sensorsEnabled [] = (inr spec, [])
      ∧ Mag.parseSensorReadings initial_likelihood vector_files vm sensorsEnabled []
        = (inr result, [])
      ∧ Mag.validateSensor world spec result = (inr false, log)
      ∧ head log = Some Mag.msg_no_locations.
Proof.
  intros iv inoise ifield ilik mfiles vfiles vm sensorsEnabled world Hoff.
  exists (Mag.MagSpec_default iv inoise ifield), (Mag.MagResults_default ilik).
  exists (diagnostics world (Mag.MagSpec_default iv inoise ifield) (Mag.MagResults_default ilik)).
  assert (walkable (Mag.locations (Mag.MagSpec_default iv inoise ifield))) as Hw.
  { split; [done|by left]. }
  destruct (no_locations_fails world (Mag.MagSpec_default iv inoise ifield)
              (Mag.MagResults_default ilik) eq_refl) as [Hp Hd].
  split_and!.
  - by apply parseSpec_skips.
  - by apply parseSensorReadings_skips.
  - by rewrite validateSensor_walkable, Hp.
  - done.
Qed.

Lemma validateSensor_refuses_empty_witness :
  ∃ spec result log,
    Mag.parseSpec (Voxel 10 10 10 0) (Noise d_1 d_1) (dzero, dzero, dzero) (λ _, None)
      ∅ {[ GRAVITY ]} [] = (inr spec, [])
    ∧ Mag.parseSensorReadings dzero (λ _, None) ∅ {[ GRAVITY ]} [] = (inr result, [])
    ∧ Mag.validateSensor world_100 spec result = (inr false, log)
    ∧ head log = Some Mag.msg_no_locations.
Proof.
  apply validateSensor_refuses_empty.
  by apply (bool_decide_unpack (MAGNETICS ∉ ({[ GRAVITY ]} : gset ForwardModel))).
Defined.

(** C8 (as stated) fails: on the empty values of a disabled sensor, with all
    scalar members valid, [validateSensor] returns false, not true; the two
    lines logged are those of the location-count and column-count checks. *)
Lemma validateSensor_empty_returns_false :
  Mag.validateSensor world_100
    (Mag.MagSpec_default (Voxel 10 10 10 0) (Noise d_1 d_1) (dzero, dzero, dzero))
    (Mag.MagResults_default dzero)
  = (inr false,
     ["input: no magnetism locations specified. Disable forward model if it is not used.";
      "input: locations in magnetism must have three cols (x, y, z)."]).
Proof. by vm_compute. Qed.

(** ** Claim on [enableProperties] *)

(** C10 — on a mask that has an entry at [RockProperty::LogSusceptibility],
    [enableProperties] returns the mask with that entry set to 1 and every
    other entry as it was, the length included; an entry that was 1 is still 1. *)
Theorem enableProperties_frame :
  ∀ (LogSusceptibility : N) (propMasksMask : VectorXi),
    uint LogSusceptibility < size propMasksMask →
    ∃ mask',
      Mag.enableProperties LogSusceptibility propMasksMask = inr mask'
      ∧ mask' !! N.to_nat (uint LogSusceptibility) = Some 1%Z
      ∧ (∀ j, j ≠ N.to_nat (uint LogSusceptibility) → mask' !! j = propMasksMask !! j)
      ∧ length mask' = length propMasksMask
      ∧ (∀ j, propMasksMask !! j = Some 1%Z → mask' !! j = Some 1%Z).
Proof.
  intros i mask Hi. unfold Mag.enableProperties.
  apply N.ltb_lt in Hi as Hb. rewrite Hb.
  unfold size in Hi.
  assert (N.to_nat (uint i) < length mask)%nat as Hlt by lia.
  eexists. split; [reflexivity|]. split_and!.
  - by apply list_lookup_insert_eq.
  - intros j Hj. by apply list_lookup_insert_ne.
  - apply length_insert.
  - intros j Hj. destruct (decide (j = N.to_nat (uint i))) as [->|Hne].
    + by apply list_lookup_insert_eq.
    + rewrite <- Hj. by apply list_lookup_insert_ne.
Qed.

Lemma enableProperties_frame_witness :
  ∃ mask',
    Mag.enableProperties 1 [1; 0; 0; 1]%Z = inr mask'
    ∧ mask' !! N.to_nat (uint 1) = Some 1%Z
    ∧ (∀ j, j ≠ N.to_nat (uint 1) → mask' !! j = [1; 0; 0; 1]%Z !! j)
    ∧ length mask' = length [1; 0; 0; 1]%Z
    ∧ (∀ j, [1; 0; 0; 1]%Z !! j = Some 1%Z → mask' !! j = Some 1%Z).
Proof. apply enableProperties_frame. by vm_compute. Defined.

(** A mask too short to have the entry: Eigen's assertion, no mask returned. *)
Lemma enableProperties_out_of_range (LogSusceptibility : N) (propMasksMask : VectorXi) :
  size propMasksMask <= uint LogSusceptibility →
  Mag.enableProperties LogSusceptibility propMasksMask = inl IndexOutOfRange.
Proof.
  intros Hi. unfold Mag.enableProperties.
  by replace (_ <? _) with false by (symmetry; by apply N.ltb_ge).
Qed.

(** ** The matrix codec and the reference wire format keep their promises *)

Lemma doubles_encode (cs : list double) :
  MatrixCodec.doubles (flat_map double_bytes cs) = Some cs.
Proof.
  induction cs as [|[] cs IH]; [done|].
  cbn [flat_map double_bytes app byte0 byte1 byte2 byte3 byte4 byte5 byte6 byte7
       MatrixCodec.doubles].
  by rewrite IH.
Qed.

(** Section 8 of the specification, first property: decoding the encoding of
    a matrix with its row count gives the matrix back.  It holds of every
    matrix that has a row, and of the 0 x 0 matrix. *)
Lemma MatrixCodec_restores (m : MatrixXd) :
  MatrixXd_wf m → rows m ≠ 0 ∨ cols m = 0 →
  restores MatrixCodec.encode MatrixCodec.decode m.
Proof.
  destruct m as [r c cs]. unfold MatrixXd_wf, restores, MatrixCodec.decode, MatrixCodec.encode.
  cbn [rows cols coeffs]. intros Hwf Hshape. rewrite doubles_encode. cbn [mbind option_bind].
  destruct (r =? 0) eqn:Er.
  - apply N.eqb_eq in Er. subst r. destruct Hshape as [Hr|Hc]; [done|]. subst c.
    destruct cs; [done|]. simpl in Hwf. lia.
  - apply N.eqb_neq in Er. unfold size. rewrite Hwf, N.mul_comm.
    rewrite N.Div0.mod_mul, N.eqb_refl, N.div_mul by done. done.
Qed.

Create HintDb wire.

Lemma get_put_positive (p : positive) (k : list byte) :
  RefWire.get_positive (RefWire.put_positive p ++ k) = Some (p, k).
Proof. induction p as [p IH|p IH|]; simpl; by rewrite ?IH. Qed.

Lemma Wire_ok_N : RefWire.Wire_ok N.
Proof.
  intros [|p] k; [done|].
  change (RefWire.put (N.pos p)) with (RefWire.put_positive p).
  unfold RefWire.get, RefWire.Wire_N.
  destruct p; simpl; by rewrite ?get_put_positive.
Qed.

Lemma Wire_ok_bool : RefWire.Wire_ok bool.
Proof. by intros [] k. Qed.

Lemma Wire_ok_double : RefWire.Wire_ok double.
Proof. by intros [] k. Qed.

Lemma Wire_ok_bytes : RefWire.Wire_ok (list byte).
Proof.
  intros l k. unfold RefWire.put, RefWire.get, RefWire.Wire_bytes.
  rewrite <- app_assoc.
  pose proof (Wire_ok_N (size l) (l ++ k)) as ->. cbn [mbind option_bind].
  unfold size. rewrite Nat2N.id.
  replace (_ <=? _) with true by (symmetry; apply N.leb_le; rewrite length_app; lia).
  by rewrite take_app_length, drop_app_length.
Qed.

Lemma Wire_ok_option A `{RefWire.Wire A} : RefWire.Wire_ok A → RefWire.Wire_ok (option A).
Proof.
  intros HA [a|] k; [|done].
  unfold RefWire.put, RefWire.get, RefWire.Wire_option. cbn [app].
  pose proof (HA a k) as ->. done.
Qed.

Lemma Wire_ok_prod A B `{RefWire.Wire A, RefWire.Wire B} :
  RefWire.Wire_ok A → RefWire.Wire_ok B → RefWire.Wire_ok (A * B).
Proof.
  intros HA HB [a b] k.
  unfold RefWire.put, RefWire.get, RefWire.Wire_prod. cbn [fst snd].
  rewrite <- app_assoc.
  pose proof (HA a (RefWire.put b ++ k)) as ->. cbn [mbind option_bind].
  pose proof (HB b k) as ->. done.
Qed.

#[local] Hint Resolve Wire_ok_N Wire_ok_bool Wire_ok_double Wire_ok_bytes
  Wire_ok_option Wire_ok_prod : wire.

Lemma Wire_ok_Voxelisation : RefWire.Wire_ok PB.VoxelisationProtobuf.
Proof.
  intros [x y z u] k. unfold RefWire.put, RefWire.get, RefWire.Wire_Voxelisation.
  cbn [PB.xresolution PB.yresolution PB.zresolution PB.supersample].
  assert (RefWire.Wire_ok (option N * option N * option N * option N)) as Hok
    by auto 10 with wire.
  pose proof (Hok (x, y, z, u) k) as ->. done.
Qed.

Lemma Wire_ok_NoiseSpec : RefWire.Wire_ok PB.NoiseSpecProtobuf.
Proof.
  intros [a b] k. unfold RefWire.put, RefWire.get, RefWire.Wire_NoiseSpec.
  cbn [PB.inversegammaalpha PB.inversegammabeta].
  assert (RefWire.Wire_ok (option double * option double)) as Hok by auto 10 with wire.
  pose proof (Hok (a, b) k) as ->. done.
Qed.

#[local] Hint Resolve Wire_ok_Voxelisation Wire_ok_NoiseSpec : wire.

Lemma Wire_ok_GravSpec : RefWire.Wire_ok PB.GravSpecProtobuf.
Proof.
  intros [n l v e] k. unfold RefWire.put, RefWire.get, RefWire.Wire_GravSpec.
  cbn [PB.numlocations PB.locations PB.voxelisation PB.noise].
  assert (RefWire.Wire_ok (option N * option (list byte) * option PB.VoxelisationProtobuf
                           * option PB.NoiseSpecProtobuf)) as Hok by auto 10 with wire.
  pose proof (Hok (n, l, v, e) k) as ->. done.
Qed.

Lemma Wire_ok_GravParams : RefWire.Wire_ok PB.GravParamsProtobuf.
Proof.
  intros [r] k. unfold RefWire.put, RefWire.get, RefWire.Wire_GravParams.
  cbn [PB.returnsensordata].
  assert (RefWire.Wire_ok (option bool)) as Hok by auto 10 with wire.
  pose proof (Hok r k) as ->. done.
Qed.

Lemma Wire_ok_GravResults : RefWire.Wire_ok PB.GravResultsProtobuf.
Proof.
  intros [l n r] k. unfold RefWire.put, RefWire.get, RefWire.Wire_GravResults.
  cbn [PB.likelihood PB.numreadings PB.readings].
  assert (RefWire.Wire_ok (option double * option N * option (list byte))) as Hok
    by auto 10 with wire.
  pose proof (Hok (l, n, r) k) as ->. done.
Qed.

(** A message type whose wire encoding reads back what it wrote keeps the
    promise of the protobuf library. *)
Lemma message_parse_serialize M `{RefWire.Wire M} (clear : M) :
  RefWire.Wire_ok M → @parse_serialize M (RefWire.message clear).
Proof.
  intros Hok pb. unfold ParseFromString, SerializeToString, RefWire.message.
  pose proof (Hok pb []) as Hget. rewrite app_nil_r in Hget. by rewrite Hget.
Qed.

Lemma GravSpec_wire_law : @parse_serialize _ RefWire.GravSpec_wire.
Proof. apply message_parse_serialize, Wire_ok_GravSpec. Qed.

Lemma GravParams_wire_law : @parse_serialize _ RefWire.GravParams_wire.
Proof. apply message_parse_serialize, Wire_ok_GravParams. Qed.

Lemma GravResults_wire_law : @parse_serialize _ RefWire.GravResults_wire.
Proof. apply message_parse_serialize, Wire_ok_GravResults. Qed.

(** ** Claims on the gravity wire codec *)

Section SerialProperties.

Context `{!ProtobufMessage PB.GravSpecProtobuf}.
Context `{!ProtobufMessage PB.GravParamsProtobuf}.
Context `{!ProtobufMessage PB.GravResultsProtobuf}.
Variable matrixString : MatrixXd → list byte.
Variable stringMatrix : list byte → N → option MatrixXd.

Lemma unserialise_serialise_GravSpec (x g0 : Grav.GravSpec) :
  parse_serialize PB.GravSpecProtobuf →
  restores matrixString stringMatrix (Grav.locations x) →
  Grav.unserialise_GravSpec stringMatrix (Grav.serialise_GravSpec matrixString x) g0 = Some x.
Proof.
  intros Hlaw Hm. unfold Grav.unserialise_GravSpec, Grav.serialise_GravSpec, protobufToString.
  cbv zeta. rewrite !Hlaw. cbn.
  unfold restores in Hm. rewrite Hm. cbn.
  by destruct x as [m [] []].
Qed.

Lemma unserialise_serialise_GravParams (x g0 : Grav.GravParams) :
  parse_serialize PB.GravParamsProtobuf →
  Grav.unserialise_GravParams (Grav.serialise_GravParams x) g0 = Some x.
Proof.
  intros Hlaw. unfold Grav.unserialise_GravParams, Grav.serialise_GravParams, protobufToString.
  cbv zeta. rewrite !Hlaw. by destruct x.
Qed.

Lemma size_pos_nonempty {A} (v : list A) : (0 <? size v) = true ↔ v ≠ [].
Proof.
  unfold size. rewrite N.ltb_lt. destruct v; simpl; [|split; [done|lia]].
  split; [lia|done].
Qed.

(** With readings to send, the object comes back whatever the target held. *)
Lemma unserialise_serialise_GravResults_some (x g0 : Grav.GravResults) :
  parse_serialize PB.GravResultsProtobuf →
  Grav.readings x ≠ [] →
  restores matrixString stringMatrix (Grav.as_matrix (Grav.readings x)) →
  Grav.unserialise_GravResults stringMatrix (Grav.serialise_GravResults matrixString x) g0
  = Some x.
Proof.
  intros Hlaw Hne Hm.
  unfold Grav.unserialise_GravResults, Grav.serialise_GravResults, protobufToString.
  cbv zeta. rewrite !Hlaw. unfold Grav.GravResults_message.
  apply size_pos_nonempty in Hne. rewrite Hne.
  unfold PB.has_readings. cbn [PB.readings]. rewrite bool_decide_eq_true_2 by eauto.
  cbn [PB.readings PB.numreadings PB.likelihood default from_option id Grav.likelihood].
  unfold restores in Hm. cbn [Grav.as_matrix rows] in Hm. rewrite Hm.
  cbn [mbind option_bind Grav.as_vector Grav.as_matrix cols coeffs N.eqb Pos.eqb].
  by destruct x.
Qed.

(** With no readings to send, the message has no [readings] and no
    [numreadings], and the target keeps the readings it held. *)
Lemma unserialise_serialise_GravResults_none (x g0 : Grav.GravResults) :
  parse_serialize PB.GravResultsProtobuf →
  Grav.readings x = [] →
  Grav.unserialise_GravResults stringMatrix (Grav.serialise_GravResults matrixString x) g0
  = Some {| Grav.likelihood := Grav.likelihood x; Grav.readings := Grav.readings g0 |}.
Proof.
  intros Hlaw He.
  unfold Grav.unserialise_GravResults, Grav.serialise_GravResults, protobufToString.
  cbv zeta. rewrite !Hlaw. unfold Grav.GravResults_message. rewrite He. done.
Qed.

(** C2 — for every [GravSpec], [GravParams] and [GravResults] value [x],
    unserialising the serialisation of [x] into a freshly constructed object
    gives [x] back, field by field (a [double] is its 64 bits, so bit for
    bit): the locations with their row count, the three resolutions and the
    supersample factor, both noise hyperparameters, [returnSensorData], the
    likelihood and the readings.  The protobuf library and the matrix codec
    are taken by their contracts: parsing a serialised message gives the
    message, and the matrices of [x] are restored from their encoding and row
    count. *)
Theorem gravity_unserialise_serialise :
  parse_serialize PB.GravSpecProtobuf →
  parse_serialize PB.GravParamsProtobuf →
  parse_serialize PB.GravResultsProtobuf →
  (∀ x g0 : Grav.GravSpec,
     restores matrixString stringMatrix (Grav.locations x) →
     Grav.unserialise_GravSpec stringMatrix (Grav.serialise_GravSpec matrixString x) g0
     = Some x)
  ∧ (∀ x g0 : Grav.GravParams,
       Grav.unserialise_GravParams (Grav.serialise_GravParams x) g0 = Some x)
  ∧ (∀ (x : Grav.GravResults) (initial_likelihood : double),
       (Grav.readings x ≠ [] →
        restores matrixString stringMatrix (Grav.as_matrix (Grav.readings x))) →
       Grav.unserialise_GravResults stringMatrix (Grav.serialise_GravResults matrixString x)
         {| Grav.likelihood := initial_likelihood; Grav.readings := [] |}
       = Some x).
Proof.
  intros Hspec Hparams Hresults. split_and!.
  - intros x g0. by apply unserialise_serialise_GravSpec.
  - intros x g0. by apply unserialise_serialise_GravParams.
  - intros x l0 Hm. destruct (decide (Grav.readings x = [])) as [He|Hne].
    + rewrite unserialise_serialise_GravResults_none by done.
      destruct x as [l r]. cbn in He. by subst r.
    + apply unserialise_serialise_GravResults_some; auto.
Qed.

(** C4 (as the code has it) — a [GravResults] with empty readings is
    serialised as a message that has neither [readings] nor [numreadings];
    and unserialising a payload that has no [readings] field leaves the
    readings of the target as they were: empty when the target came in empty,
    never filled with zeros, and unchanged when it held readings. *)
Theorem absent_readings_left_alone :
  (∀ g : Grav.GravResults,
     Grav.readings g = [] →
     ∃ pb, Grav.serialise_GravResults matrixString g = protobufToString pb
           ∧ PB.has_readings pb = false ∧ PB.has_numreadings pb = false
           ∧ PB.likelihood pb = Some (Grav.likelihood g))
  ∧ (∀ (s : list byte) (g0 : Grav.GravResults),
       PB.has_readings (ParseFromString s) = false →
       ∃ g', Grav.unserialise_GravResults stringMatrix s g0 = Some g'
             ∧ Grav.readings g' = Grav.readings g0
             ∧ (Grav.readings g0 = [] → Grav.readings g' = [])).
Proof.
  split.
  - intros g He. exists (Grav.GravResults_message matrixString g).
    split; [done|]. unfold Grav.GravResults_message. by rewrite He.
  - intros s g0 Hno. unfold Grav.unserialise_GravResults. rewrite Hno.
    eexists. split; [done|]. cbn [Grav.readings]. auto.
Qed.

End SerialProperties.

(** With the matrix codec as the specification describes it, a [GravSpec]
    comes back whenever its location table has a row, and so does the spec
    that holds the 0 x 0 table of a default-constructed matrix. *)
Lemma unserialise_serialise_GravSpec_table `{!ProtobufMessage PB.GravSpecProtobuf}
    (x g0 : Grav.GravSpec) :
  parse_serialize PB.GravSpecProtobuf →
  MatrixXd_wf (Grav.locations x) →
  rows (Grav.locations x) ≠ 0 ∨ cols (Grav.locations x) = 0 →
  Grav.unserialise_GravSpec MatrixCodec.decode
    (Grav.serialise_GravSpec MatrixCodec.encode x) g0 = Some x.
Proof.
  intros Hlaw Hwf Hshape.
  by apply unserialise_serialise_GravSpec, MatrixCodec_restores.
Qed.

Lemma gravity_unserialise_serialise_witness :
  @Grav.unserialise_GravSpec RefWire.GravSpec_wire MatrixCodec.decode
    (@Grav.serialise_GravSpec RefWire.GravSpec_wire MatrixCodec.encode sample_GravSpec)
    {| Grav.locations := MatrixXd_empty; Grav.voxelisation := Voxel 0 0 0 0;
       Grav.noise := Noise dzero dzero |}
  = Some sample_GravSpec
  ∧ @Grav.unserialise_GravParams RefWire.GravParams_wire
      (@Grav.serialise_GravParams RefWire.GravParams_wire sample_GravParams)
      {| Grav.returnSensorData := false |}
    = Some sample_GravParams
  ∧ @Grav.unserialise_GravResults RefWire.GravResults_wire MatrixCodec.decode
      (@Grav.serialise_GravResults RefWire.GravResults_wire MatrixCodec.encode sample_GravResults)
      {| Grav.likelihood := dzero; Grav.readings := [] |}
    = Some sample_GravResults.
Proof.
  destruct (@gravity_unserialise_serialise
              RefWire.GravSpec_wire RefWire.GravParams_wire RefWire.GravResults_wire
              MatrixCodec.encode MatrixCodec.decode
              GravSpec_wire_law GravParams_wire_law GravResults_wire_law)
    as (Hspec & Hparams & Hresults).
  split_and!.
  - apply Hspec. apply MatrixCodec_restores; [reflexivity|by left].
  - apply Hparams.
  - apply Hresults. intros _. apply MatrixCodec_restores; [reflexivity|by left].
Defined.

Lemma absent_readings_left_alone_witness :
  (∃ pb, @Grav.serialise_GravResults RefWire.GravResults_wire MatrixCodec.encode
           {| Grav.likelihood := d_5; Grav.readings := [] |}
         = @protobufToString _ RefWire.GravResults_wire pb
         ∧ PB.has_readings pb = false ∧ PB.has_numreadings pb = false
         ∧ PB.likelihood pb = Some d_5)
  ∧ (∃ g', @Grav.unserialise_GravResults RefWire.GravResults_wire MatrixCodec.decode
             (@Grav.serialise_GravResults RefWire.GravResults_wire MatrixCodec.encode
                {| Grav.likelihood := d_5; Grav.readings := [] |})
             {| Grav.likelihood := dzero; Grav.readings := [] |}
           = Some g'
           ∧ Grav.readings g' = Grav.readings {| Grav.likelihood := dzero; Grav.readings := [] |}
           ∧ (Grav.readings {| Grav.likelihood := dzero; Grav.readings := [] |} = [] →
              Grav.readings g' = [])).
Proof.
  destruct (@absent_readings_left_alone RefWire.GravResults_wire
              MatrixCodec.encode MatrixCodec.decode) as (Hsend & Hreceive).
  split.
  - by apply (Hsend {| Grav.likelihood := d_5; Grav.readings := [] |}).
  - apply (Hreceive _ {| Grav.likelihood := dzero; Grav.readings := [] |}).
    by vm_compute.
Defined.

(** C4 (as stated) fails: a payload that has no [readings] field, unserialised
    into an object that holds two readings, leaves those two readings there;
    the readings are not empty after the call. *)
Lemma absent_readings_keep_stale_values :
  let payload :=
    @Grav.serialise_GravResults RefWire.GravResults_wire MatrixCodec.encode
      {| Grav.likelihood := d_5; Grav.readings := [] |} in
  PB.has_readings (@ParseFromString _ RefWire.GravResults_wire payload) = false
  ∧ @Grav.unserialise_GravResults RefWire.GravResults_wire MatrixCodec.decode payload
      {| Grav.likelihood := dzero; Grav.readings := [d_1; d_10] |}
    = Some {| Grav.likelihood := d_5; Grav.readings := [d_1; d_10] |}.
Proof. split; by vm_compute. Qed.

(** * Further properties of the code *)

(** ** [validateSensor]: the flag and the log *)

(** A computation that leaves the state as it found it. *)
Lemma coeff_keeps_state {St} (m : MatrixXd) l c (s : St) : (coeff m l c s).2 = s.
Proof. by rewrite coeff_entry. Qed.

Lemma compare_keeps_state {St} (m : MatrixXd) l c (f : double → bool) (s : St) :
  ((coeff m l c ≫= λ v, mret (f v)) s).2 = s.
Proof.
  unfold mbind, Eff_bind. rewrite coeff_entry. by destruct (entry m l c).
Qed.

Lemma orelse_keeps_state {St} (a b : Eff St bool) :
  (∀ s, (a s).2 = s) → (∀ s, (b s).2 = s) → ∀ s, (orelse a b s).2 = s.
Proof.
  intros Ha Hb s. unfold orelse, mbind, Eff_bind.
  pose proof (Ha s) as Has. destruct (a s) as [[e|[]] s']; cbn in *; subst; [done|done|apply Hb].
Qed.

Lemma outside_keeps_log world spec l s : (Mag.outside world spec l s).2 = s.
Proof.
  unfold Mag.outside.
  repeat (apply orelse_keeps_state; [intros; apply compare_keeps_state|]).
  intros. apply compare_keeps_state.
Qed.

(** The flag is true exactly when the log is empty: one guarded [LOG(ERROR)]
    keeps it so. *)
Lemma in_step (valid : bool) (s : list string) (b : bool) (line : string) :
  (valid = true ↔ s = []) → (valid && negb b = true ↔ s ++ when b line = []).
Proof.
  intros H. destruct b; cbn [negb when].
  - rewrite andb_false_r. split; [done|]. by intros [_ ?]%app_eq_nil.
  - by rewrite andb_true_r, app_nil_r.
Qed.

Lemma locations_loop_in_step world spec :
  ∀ fuel l valid s valid' s',
    (valid = true ↔ s = []) →
    Mag.locations_loop fuel world spec l valid s = (inr valid', s') →
    (valid' = true ↔ s' = []).
Proof.
  intros fuel. induction fuel as [|fuel IH]; intros l valid s valid' s' Hin; [done|].
  rewrite locations_loop_step. destruct (l <? _); [|by intros [= <- <-]].
  pose proof (outside_keeps_log world spec l s) as Hlog.
  destruct (Mag.outside world spec l s) as [[e|out] s0] eqn:Eout; cbn in Hlog; subst s0.
  - by rewrite (bind_fails _ _ _ _ _ Eout).
  - rewrite (bind_returns _ _ _ _ _ Eout).
    rewrite (bind_returns _ _ _ _ _ (check_step _ _ _ _)).
    apply IH. by apply in_step.
Qed.

Lemma returned {St A} (a a' : A) (s s' : St) :
  (mret a : Eff St A) s = (inr a', s') → a = a' ∧ s = s'.
Proof. by intros [= -> ->]. Qed.

(** X2 — whenever [validateSensor] returns, the value it returns is true
    exactly when it has logged nothing: no failure goes unreported and no
    line is logged for an input that passes. *)
Theorem validateSensor_true_iff_silent :
  ∀ world spec result (valid : bool) (log : list string),
    Mag.validateSensor world spec result = (inr valid, log) →
    (valid = true ↔ log = []).
Proof.
  intros world spec result valid log. unfold Mag.validateSensor, Mag.validateSensor_body.
  rewrite (bind_returns _ _ _ _ _ (check_step _ _ _ _)).
  rewrite (bind_returns _ _ _ _ _ (check_step _ _ _ _)).
  unfold mbind at 1, Eff_bind at 1.
  destruct (Mag.locations_loop _ _ _ _ _ _) as [[e|v] s] eqn:Eloop; [done|].
  rewrite (bind_returns _ _ _ _ _ (check_step _ _ _ _)).
  rewrite (bind_returns _ _ _ _ _ (check_step _ _ _ _)).
  rewrite (bind_returns _ _ _ _ _ (check_step _ _ _ _)).
  intros [<- <-]%returned.
  do 3 apply in_step.
  eapply locations_loop_in_step; [|exact Eloop].
  do 2 apply in_step. done.
Qed.

Lemma validateSensor_true_iff_silent_witness :
  (false = true ↔ ["input: magnetism location 2 is out of world bounds"] = [])
  ∧ (true = true ↔ @nil string = []).
Proof.
  split.
  - apply (validateSensor_true_iff_silent world_100
             (sample_spec locations_second_outside d_1 d_1) (sample_result [d_1; d_1])).
    by vm_compute.
  - apply (validateSensor_true_iff_silent world_100
             (sample_spec locations_one_inside d_1 d_1) (sample_result [d_1])).
    by vm_compute.
Defined.

Lemma validateSensor_false_iff_witness :
  (Mag.validateSensor world_100 (sample_spec locations_three_inside d_1 d_1)
     (sample_result [d_1; d_1])).1 = inr false
  ↔ ∃ c, c ∈ generic_checks
         ∧ check_fires world_100 (sample_spec locations_three_inside d_1 d_1)
             (sample_result [d_1; d_1]) c = true.
Proof.
  apply validateSensor_false_iff.
  - split; [done|]. right. split; [done|reflexivity].
  - done.
Defined.

Lemma validateSensor_reports_each_witness :
  let spec := sample_spec locations_second_outside dzero d_1 in
  let result := sample_result [d_1] in
  ∃ log, (Mag.validateSensor world_100 spec result).2 = log
    ∧ (no_locations spec = true → Mag.msg_no_locations ∈ log)
    ∧ (bad_columns spec = true → Mag.msg_columns ∈ log)
    ∧ (∀ l, l < rows (Mag.locations spec) →
            row_outside world_100 (Mag.locations spec) l = true →
            Mag.msg_out_of_bounds l ∈ log)
    ∧ (bad_voxelisation spec = true → Mag.msg_voxelisation ∈ log)
    ∧ (bad_noise_alpha spec = true → Mag.msg_noise ∈ log)
    ∧ (readings_mismatch spec result = true →
       Mag.msg_readings (size (Mag.readings result)) (rows (Mag.locations spec)) ∈ log).
Proof.
  apply validateSensor_reports_each.
  split; [done|]. right. split; [done|reflexivity].
Defined.



(** ** [validateSensor]: what the comparisons let through *)

Lemma nan_compares_false (x b : double) :
  double_value x = S754_nan →
  dlt x b = false ∧ dgt x b = false ∧ dle x b = false.
Proof.
  intros Hx. unfold dlt, dgt, dle. rewrite Hx. by destruct (double_value b).
Qed.

(** X6 — a NaN is never out of bounds and never non-positive: when every x
    and y of the location table is a NaN and [inverseGammaAlpha] is a NaN,
    and the four checks that do not compare doubles pass, [validateSensor]
    returns true and logs nothing. *)
Theorem validateSensor_accepts_nan :
  ∀ world spec result,
    walkable (Mag.locations spec) →
    no_locations spec = false → bad_columns spec = false →
    bad_voxelisation spec = false → readings_mismatch spec result = false →
    (∀ l c x, c < 2 → entry (Mag.locations spec) l c = Some x → double_value x = S754_nan) →
    double_value (inverseGammaAlpha (Mag.noise spec)) = S754_nan →
    Mag.validateSensor world spec result = (inr true, []).
Proof.
  intros world spec result Hw H1 H2 H4 H6 Hnan Halpha.
  assert (passes world spec result = true) as Hp.
  { unfold passes, bad_noise_alpha. rewrite H1, H2, H4, H6.
    rewrite (proj2 (proj2 (nan_compares_false _ dzero Halpha))).
    rewrite !andb_true_r. cbn [negb andb]. apply forallb_forall. intros l _.
    unfold row_outside.
    destruct (entry _ l 0) as [x|] eqn:Ex; [|done].
    destruct (entry _ l 1) as [y|] eqn:Ey; [|done].
    unfold out_of_bounds.
    destruct (nan_compares_false x (xBounds world).1) as (-> & _);
      [by apply (Hnan l 0 x)|].
    destruct (nan_compares_false x (xBounds world).2) as (_ & -> & _);
      [by apply (Hnan l 0 x)|].
    destruct (nan_compares_false y (yBounds world).1) as (-> & _);
      [by apply (Hnan l 1 y)|].
    destruct (nan_compares_false y (yBounds world).2) as (_ & -> & _);
      [by apply (Hnan l 1 y)|].
    done. }
  rewrite validateSensor_walkable, Hp by done.
  by rewrite (proj1 (passes_no_diagnostics world spec result) Hp).
Qed.

Lemma validateSensor_accepts_nan_witness :
  Mag.validateSensor world_100 (sample_spec (Matrix 1 3 [d_nan; d_nan; dzero]) d_nan d_1)
    (sample_result [d_1])
  = (inr true, []).
Proof.
  apply validateSensor_accepts_nan.
  - split; [done|]. right. split; [done|reflexivity].
  - reflexivity.
  - reflexivity.
  - reflexivity.
  - reflexivity.
  - intros l c x Hc. unfold entry. cbn [Mag.locations sample_spec rows cols coeffs].
    destruct (l <? 1) eqn:El; [|done]. apply N.ltb_lt in El.
    assert (l = 0) as -> by lia.
    assert (c = 0 ∨ c = 1) as [-> | ->] by lia;
      intros H; vm_compute in H; injection H as <-; by vm_compute.
  - by vm_compute.
Defined.

(** ** [validateSensor]: no line without a cause *)

Lemma SFcompare_antisym (a b : spec_float) :
  SFcompare b a = CompOpp <$> SFcompare a b.
Proof.
  destruct a as [sa|sa| |sa ma ea], b as [sb|sb| |sb mb eb]; cbn; try done;
    try (by destruct sa); try (by destruct sb); try (by destruct sa, sb).
  pose proof (Pos.compare_cont_antisym ma mb Eq) as Hm. cbn [CompOpp] in Hm.
  destruct sa, sb; try done;
    rewrite (Z.compare_antisym ea eb); destruct (ea ?= eb)%Z eqn:E; cbn; try done;
    rewrite <- Hm; by rewrite ?CompOpp_involutive.
Qed.

(** [a <= b] rules out [a > b], and [b < a]. *)
Lemma dle_not_dgt (a b : double) : dle a b = true → dgt a b = false ∧ dlt b a = false.
Proof.
  unfold dle, dgt, dlt, SFleb, SFltb. rewrite (SFcompare_antisym (double_value a)).
  by destruct (SFcompare (double_value a) (double_value b)) as [[]|].
Qed.

(** A point within the bounds, the bounds included, is not outside. *)
Lemma within_bounds world x y :
  dle (xBounds world).1 x = true → dle x (xBounds world).2 = true →
  dle (yBounds world).1 y = true → dle y (yBounds world).2 = true →
  out_of_bounds world x y = false.
Proof.
  intros Hx1 Hx2 Hy1 Hy2. unfold out_of_bounds.
  rewrite (proj2 (dle_not_dgt _ _ Hx1)), (proj1 (dle_not_dgt _ _ Hx2)).
  by rewrite (proj2 (dle_not_dgt _ _ Hy1)), (proj1 (dle_not_dgt _ _ Hy2)).
Qed.

Lemma length_append (s t : string) :
  String.length (s +:+ t) = (String.length s + String.length t)%nat.
Proof. induction s as [|c s IH]; [done|]. simpl. f_equal. exact IH. Qed.

Lemma append_cancel_r (s1 s2 t : string) : s1 +:+ t = s2 +:+ t → s1 = s2.
Proof.
  revert s2. induction s1 as [|c s1 IH]; intros [|c' s2] H; [done| | |].
  - apply (f_equal String.length) in H. rewrite !length_append in H. simpl in H. lia.
  - apply (f_equal String.length) in H. rewrite !length_append in H. simpl in H. lia.
  - simpl in H. injection H as -> H. f_equal. by apply IH.
Qed.

(** Different rows have different lines, while the row number fits a [uint]. *)
Lemma msg_out_of_bounds_inj (l l' : N) :
  l + 1 < 2 ^ 32 → l' + 1 < 2 ^ 32 →
  Mag.msg_out_of_bounds l = Mag.msg_out_of_bounds l' → l = l'.
Proof.
  intros Hl Hl'. unfold Mag.msg_out_of_bounds, uint.
  rewrite !N.mod_small by done. intros H.
  apply (inj (String.append _)), append_cancel_r, (inj pretty) in H. lia.
Qed.

(** Where a line of the log comes from. *)
Lemma elem_of_diagnostics world spec result (line : string) :
  line ∈ diagnostics world spec result ↔
    (no_locations spec = true ∧ line = Mag.msg_no_locations)
    ∨ (bad_columns spec = true ∧ line = Mag.msg_columns)
    ∨ (∃ l, l < rows (Mag.locations spec)
            ∧ row_outside world (Mag.locations spec) l = true
            ∧ line = Mag.msg_out_of_bounds l)
    ∨ (bad_voxelisation spec = true ∧ line = Mag.msg_voxelisation)
    ∨ (bad_noise_alpha spec = true ∧ line = Mag.msg_noise)
    ∨ (readings_mismatch spec result = true
       ∧ line = Mag.msg_readings (size (Mag.readings result)) (rows (Mag.locations spec))).
Proof.
  assert (∀ (b : bool) (m : string), line ∈ when b m ↔ b = true ∧ line = m) as Hwhen.
  { intros [] m; cbn [when].
    - rewrite list_elem_of_singleton. intuition.
    - rewrite elem_of_nil. intuition discriminate. }
  unfold diagnostics. rewrite !elem_of_app, !Hwhen, list_elem_of_fmap.
  assert ((∃ l, line = Mag.msg_out_of_bounds l ∧ l ∈ rows_outside world (Mag.locations spec))
          ↔ ∃ l, l < rows (Mag.locations spec)
                 ∧ row_outside world (Mag.locations spec) l = true
                 ∧ line = Mag.msg_out_of_bounds l) as ->; [|done].
  unfold rows_outside. split; intros (l & H).
  - destruct H as [-> [Hin Hout]%list_elem_of_In%filter_In].
    apply list_elem_of_In, elem_of_indices in Hin. exists l. split_and!; [lia|done|done].
  - destruct H as (Hl & Hout & ->). exists l. split; [done|].
    apply list_elem_of_In, filter_In. split; [|done].
    apply list_elem_of_In, elem_of_indices. lia.
Qed.

(** X7 — no false alarm on the bounds: on a location table [validateSensor]
    can walk, a row whose x and y lie within the world bounds, the bounds
    themselves included, has no out-of-bounds line in the log. *)
Theorem validateSensor_inside_not_reported :
  ∀ world spec result l x y,
    walkable (Mag.locations spec) →
    entry (Mag.locations spec) l 0 = Some x →
    entry (Mag.locations spec) l 1 = Some y →
    dle (xBounds world).1 x = true → dle x (xBounds world).2 = true →
    dle (yBounds world).1 y = true → dle y (yBounds world).2 = true →
    Mag.msg_out_of_bounds l ∉ (Mag.validateSensor world spec result).2.
Proof.
  intros world spec result l x y Hw Hx Hy Hx1 Hx2 Hy1 Hy2.
  rewrite validateSensor_walkable by done. cbn [snd].
  rewrite elem_of_diagnostics.
  pose proof (diagnostic_lines_distinct l (size (Mag.readings result))
                (rows (Mag.locations spec))) as Hnd.
  rewrite !NoDup_cons, !not_elem_of_cons in Hnd.
  intros [[_ H]|[[_ H]|[(l' & Hl' & Hout & H)|[[_ H]|[[_ H]|[_ H]]]]]];
    try (symmetry in H); try (exfalso; intuition congruence).
  pose proof (entry_row _ _ _ _ Hx) as Hl. destruct Hw as [Hrows _].
  apply msg_out_of_bounds_inj in H; [|lia..].
  subst l'. rewrite (row_outside_entries _ _ _ x y Hx Hy) in Hout.
  by rewrite within_bounds in Hout.
Qed.

Lemma validateSensor_inside_not_reported_witness :
  entry locations_second_outside 0 0 = Some d_10
  ∧ entry locations_second_outside 0 1 = Some d_10
  ∧ Mag.msg_out_of_bounds 0
    ∉ (Mag.validateSensor world_100 (sample_spec locations_second_outside d_1 d_1)
         (sample_result [d_1; d_1])).2.
Proof.
  split_and!; [reflexivity|reflexivity|].
  apply (validateSensor_inside_not_reported world_100 _ _ 0 d_10 d_10);
    [split; [done|]; right; split; [done|reflexivity] | reflexivity | reflexivity | ..];
    by vm_compute.
Defined.

(** ** [enableProperties]: composing calls *)

(** X8 — enabling a property twice is enabling it once, and two properties
    can be enabled in either order: the masks that result are the same. *)
Theorem enableProperties_compose :
  (∀ i mask mask',
     Mag.enableProperties i mask = inr mask' → Mag.enableProperties i mask' = inr mask')
  ∧ (∀ i j mask mask_i mask_j,
       Mag.enableProperties i mask = inr mask_i →
       Mag.enableProperties j mask = inr mask_j →
       ∃ both, Mag.enableProperties j mask_i = inr both
               ∧ Mag.enableProperties i mask_j = inr both).
Proof.
  unfold Mag.enableProperties, size, VectorXi. split.
  - intros i mask mask'. destruct (uint i <? _) eqn:E; [|done]. intros [= <-].
    by rewrite length_insert, E, list_insert_insert_eq.
  - intros i j mask mask_i mask_j.
    destruct (uint i <? _) eqn:Ei; [|done]. destruct (uint j <? _) eqn:Ej; [|done].
    intros [= <-] [= <-]. rewrite !length_insert, Ei, Ej. eexists. split; [done|].
    destruct (decide (N.to_nat (uint i) = N.to_nat (uint j))) as [->|Hne]; [done|].
    by rewrite list_insert_insert_ne.
Qed.

Lemma enableProperties_compose_witness :
  Mag.enableProperties 1 [0; 1; 0]%Z = inr [0; 1; 0]%Z
  ∧ ∃ both, Mag.enableProperties 2 [0; 1; 0]%Z = inr both
            ∧ Mag.enableProperties 1 [0; 0; 1]%Z = inr both.
Proof.
  split.
  - by apply (proj1 enableProperties_compose 1 [0; 0; 0]%Z).
  - by apply (proj2 enableProperties_compose 1 2 [0; 0; 0]%Z).
Defined.

(** ** The parse functions on an enabled sensor *)

Lemma as_string_run vm key t :
  as_string vm key t
  = (match vm !! key with Some (VString s) => inr s | _ => inl (BadAnyCast key) end,
     t ++ [ReadOption key]).
Proof. unfold as_string, mbind, Eff_bind, tell. by destruct (vm !! key) as [[]|]. Qed.

Lemma as_double_run vm key t :
  as_double vm key t
  = (match vm !! key with Some (VDouble d) => inr d | _ => inl (BadAnyCast key) end,
     t ++ [ReadOption key]).
Proof. unfold as_double, mbind, Eff_bind, tell. by destruct (vm !! key) as [[]|]. Qed.

Lemma as_uint_run vm key t :
  as_uint vm key t
  = (match vm !! key with Some (VUint n) => inr n | _ => inl (BadAnyCast key) end,
     t ++ [ReadOption key]).
Proof. unfold as_uint, mbind, Eff_bind, tell. by destruct (vm !! key) as [[]|]. Qed.

Lemma as_Vector3i_run vm key t :
  as_Vector3i vm key t
  = (match vm !! key with Some (VVector3i v) => inr v | _ => inl (BadAnyCast key) end,
     t ++ [ReadOption key]).
Proof. unfold as_Vector3i, mbind, Eff_bind, tell. by destruct (vm !! key) as [[]|]. Qed.

Lemma as_Vector3d_run vm key t :
  as_Vector3d vm key t
  = (match vm !! key with Some (VVector3d v) => inr v | _ => inl (BadAnyCast key) end,
     t ++ [ReadOption key]).
Proof. unfold as_Vector3d, mbind, Eff_bind, tell. by destruct (vm !! key) as [[]|]. Qed.

Lemma csv_read_run {T} (files : string → option T) path t :
  csv_read files path t
  = (match files path with Some table => inr table | None => inl (CsvUnreadable path) end,
     t ++ [ReadCsv path]).
Proof. unfold csv_read, mbind, Eff_bind, tell. by destruct (files path). Qed.

(** How a call of [parseSpec] on an enabled sensor ends: it returns the spec
    built from the options and the table, or stops at an option that is not
    there with the type it is read at, or at a table that cannot be read. *)
Lemma parseSpec_outcome iv inoise ifield files
    (vm : gmap string option_value) (sensorsEnabled : gset ForwardModel) t :
  MAGNETICS ∈ sensorsEnabled →
  (∃ path locs magRes super alpha beta magFld,
     vm !! "magnetism.sensorLocations" = Some (VString path)
     ∧ files path = Some locs
     ∧ vm !! "magnetism.gridResolution" = Some (VVector3i magRes)
     ∧ vm !! "magnetism.supersample" = Some (VUint super)
     ∧ vm !! "magnetism.noiseAlpha" = Some (VDouble alpha)
     ∧ vm !! "magnetism.noiseBeta" = Some (VDouble beta)
     ∧ vm !! "magnetism.magneticField" = Some (VVector3d magFld)
     ∧ Mag.parseSpec iv inoise ifield files vm sensorsEnabled t
       = (inr (spec_of_options locs magRes super alpha beta magFld),
          t ++ parseSpec_reads path))
  ∨ (∃ d t', d ∈ Mag.initSensorInputFileOptions []
       ∧ (∀ v, vm !! opt_name d = Some v → type_of v ≠ opt_type d)
       ∧ last t' = Some (ReadOption (opt_name d))
       ∧ Mag.parseSpec iv inoise ifield files vm sensorsEnabled t
         = (inl (BadAnyCast (opt_name d)), t'))
  ∨ (∃ path, vm !! "magnetism.sensorLocations" = Some (VString path)
       ∧ files path = None
       ∧ Mag.parseSpec iv inoise ifield files vm sensorsEnabled t
         = (inl (CsvUnreadable path),
            t ++ [ReadOption "magnetism.sensorLocations"; ReadCsv path])).
Proof.
  intros Hon.
  remember (Mag.parseSpec iv inoise ifield files vm sensorsEnabled t) as r eqn:Er.
  unfold Mag.parseSpec in Er. rewrite bool_decide_eq_true_2 in Er by done.
  unfold mbind at 1, Eff_bind at 1 in Er. rewrite as_string_run in Er.
  destruct (vm !! "magnetism.sensorLocations") as [[| path | | | |]|] eqn:E1; cbv beta iota in Er;
    try (right; left; exists (Option_decl "magnetism.sensorLocations" TString "sensor locations"); eexists;
         split_and!; [set_solver | cbn; rewrite E1; by intros ? [= <-] | apply last_snoc
                     | exact Er]).
  unfold mbind at 1, Eff_bind at 1 in Er. rewrite csv_read_run in Er.
  destruct (files path) as [locs|] eqn:E2; cbv beta iota in Er;
    [|right; right; exists path; by rewrite <- app_assoc in Er].
  unfold mbind at 1, Eff_bind at 1 in Er. rewrite as_Vector3i_run in Er.
  destruct (vm !! "magnetism.gridResolution") as [[| | | | magRes |]|] eqn:E3; cbv beta iota in Er;
    try (right; left; exists (Option_decl "magnetism.gridResolution" TVector3i "grid points per cube side"); eexists;
         split_and!; [set_solver | cbn; rewrite E3; by intros ? [= <-] | apply last_snoc
                     | exact Er]).
  unfold mbind at 1, Eff_bind at 1 in Er. rewrite as_uint_run in Er.
  destruct (vm !! "magnetism.supersample") as [[| | | super | |]|] eqn:E4; cbv beta iota in Er;
    try (right; left; exists (Option_decl "magnetism.supersample" TUint "supersampling exponent"); eexists;
         split_and!; [set_solver | cbn; rewrite E4; by intros ? [= <-] | apply last_snoc
                     | exact Er]).
  unfold mbind at 1, Eff_bind at 1 in Er. rewrite as_double_run in Er.
  destruct (vm !! "magnetism.noiseAlpha") as [[| | alpha | | |]|] eqn:E5; cbv beta iota in Er;
    try (right; left; exists (Option_decl "magnetism.noiseAlpha" TDouble "noise NIG alpha variable"); eexists;
         split_and!; [set_solver | cbn; rewrite E5; by intros ? [= <-] | apply last_snoc
                     | exact Er]).
  unfold mbind at 1, Eff_bind at 1 in Er. rewrite as_double_run in Er.
  destruct (vm !! "magnetism.noiseBeta") as [[| | beta | | |]|] eqn:E6; cbv beta iota in Er;
    try (right; left; exists (Option_decl "magnetism.noiseBeta" TDouble "noise NIG beta variable"); eexists;
         split_and!; [set_solver | cbn; rewrite E6; by intros ? [= <-] | apply last_snoc
                     | exact Er]).
  unfold mbind at 1, Eff_bind at 1 in Er. rewrite as_Vector3d_run in Er.
  destruct (vm !! "magnetism.magneticField") as [[| | | | | magFld]|] eqn:E7; cbv beta iota in Er;
    try (right; left; exists (Option_decl "magnetism.magneticField" TVector3d "magnetic field of location"); eexists;
         split_and!; [set_solver | cbn; rewrite E7; by intros ? [= <-] | apply last_snoc
                     | exact Er]).
  left. exists path, locs, magRes, super, alpha, beta, magFld.
  split_and!; try done.
  unfold parseSpec_reads. rewrite <- !app_assoc in Er. exact Er.
Qed.

(** X9 — on an enabled sensor [parseSpec] returns exactly when the options
    hold a string for the locations file, a table is stored under that path,
    and the grid resolution, the supersample exponent, the two noise
    parameters and the magnetic field are there with their types; the spec
    returned holds the table and those values (each grid component converted
    to [uint]), and the reads are the seven of [parseSpec_reads], in order. *)
Theorem parseSpec_returns_iff :
  ∀ iv inoise ifield files (vm : gmap string option_value)
    (sensorsEnabled : gset ForwardModel) t spec t',
    MAGNETICS ∈ sensorsEnabled →
    Mag.parseSpec iv inoise ifield files vm sensorsEnabled t = (inr spec, t')
    ↔ ∃ path locs magRes super alpha beta magFld,
        vm !! "magnetism.sensorLocations" = Some (VString path)
        ∧ files path = Some locs
        ∧ vm !! "magnetism.gridResolution" = Some (VVector3i magRes)
        ∧ vm !! "magnetism.supersample" = Some (VUint super)
        ∧ vm !! "magnetism.noiseAlpha" = Some (VDouble alpha)
        ∧ vm !! "magnetism.noiseBeta" = Some (VDouble beta)
        ∧ vm !! "magnetism.magneticField" = Some (VVector3d magFld)
        ∧ spec = spec_of_options locs magRes super alpha beta magFld
        ∧ t' = t ++ parseSpec_reads path.
Proof.
  intros iv inoise ifield files vm sensorsEnabled t spec t' Hon. split.
  - intros Hrun.
    destruct (parseSpec_outcome iv inoise ifield files vm sensorsEnabled t Hon)
      as [(path & locs & magRes & super & alpha & beta & magFld & H)
         |[(d & t0 & _ & _ & _ & H)|(path & _ & _ & H)]].
    + destruct H as (E1 & E2 & E3 & E4 & E5 & E6 & E7 & H).
      rewrite H in Hrun. injection Hrun as <- <-.
      by exists path, locs, magRes, super, alpha, beta, magFld.
    + rewrite H in Hrun. discriminate Hrun.
    + rewrite H in Hrun. discriminate Hrun.
  - intros (path & locs & magRes & super & alpha & beta & magFld
            & E1 & E2 & E3 & E4 & E5 & E6 & E7 & -> & ->).
    unfold Mag.parseSpec. rewrite bool_decide_eq_true_2 by done.
    erewrite bind_returns; [|by rewrite as_string_run, E1].
    erewrite bind_returns; [|by rewrite csv_read_run, E2].
    erewrite bind_returns; [|by rewrite as_Vector3i_run, E3].
    erewrite bind_returns; [|by rewrite as_uint_run, E4].
    erewrite bind_returns; [|by rewrite as_double_run, E5].
    erewrite bind_returns; [|by rewrite as_double_run, E6].
    erewrite bind_returns; [|by rewrite as_Vector3d_run, E7].
    unfold parseSpec_reads. by rewrite <- !app_assoc.
Qed.

Lemma sample_options_enabled : MAGNETICS ∈ ({[ MAGNETICS ]} : gset ForwardModel).
Proof. by apply elem_of_singleton. Qed.

Lemma parseSpec_returns_iff_witness :
  Mag.parseSpec (Voxel 0 0 0 0) (Noise dzero dzero) (dzero, dzero, dzero)
    sample_matrix_files sample_options {[ MAGNETICS ]} []
  = (inr (spec_of_options (Matrix 1 3 [d_10; d_10; dzero]) (-1, 5, 5)%Z 0 d_1 d_5
            (dzero, dzero, d_1)),
     parseSpec_reads "locations.csv")
  ↔ ∃ path locs magRes super alpha beta magFld,
      sample_options !! "magnetism.sensorLocations" = Some (VString path)
      ∧ sample_matrix_files path = Some locs
      ∧ sample_options !! "magnetism.gridResolution" = Some (VVector3i magRes)
      ∧ sample_options !! "magnetism.supersample" = Some (VUint super)
      ∧ sample_options !! "magnetism.noiseAlpha" = Some (VDouble alpha)
      ∧ sample_options !! "magnetism.noiseBeta" = Some (VDouble beta)
      ∧ sample_options !! "magnetism.magneticField" = Some (VVector3d magFld)
      ∧ spec_of_options (Matrix 1 3 [d_10; d_10; dzero]) (-1, 5, 5)%Z 0 d_1 d_5
          (dzero, dzero, d_1)
        = spec_of_options locs magRes super alpha beta magFld
      ∧ parseSpec_reads "locations.csv" = [] ++ parseSpec_reads path.
Proof. apply parseSpec_returns_iff, sample_options_enabled. Defined.

(** X10 — on an enabled sensor [parseSpec] fails in two ways only: with
    [bad_any_cast] on an option that [initSensorInputFileOptions] declares and
    that the options do not hold at its declared type, that option being the
    last thing read; or on the locations file, when no table is stored under
    the path the options give, the file being the last thing read. *)
Theorem parseSpec_fails_only :
  ∀ iv inoise ifield files (vm : gmap string option_value)
    (sensorsEnabled : gset ForwardModel) t e t',
    MAGNETICS ∈ sensorsEnabled →
    Mag.parseSpec iv inoise ifield files vm sensorsEnabled t = (inl e, t') →
    (∃ d, d ∈ Mag.initSensorInputFileOptions []
          ∧ e = BadAnyCast (opt_name d)
          ∧ (∀ v, vm !! opt_name d = Some v → type_of v ≠ opt_type d)
          ∧ last t' = Some (ReadOption (opt_name d)))
    ∨ (∃ path, e = CsvUnreadable path
               ∧ vm !! "magnetism.sensorLocations" = Some (VString path)
               ∧ files path = None
               ∧ last t' = Some (ReadCsv path)).
Proof.
  intros iv inoise ifield files vm sensorsEnabled t e t' Hon Hrun.
  destruct (parseSpec_outcome iv inoise ifield files vm sensorsEnabled t Hon)
    as [(path & locs & magRes & super & alpha & beta & magFld & H)
       |[(d & t0 & Hd & Hty & Hlast & H)|(path & E1 & E2 & H)]].
  - destruct H as (_ & _ & _ & _ & _ & _ & _ & H). rewrite H in Hrun. discriminate Hrun.
  - rewrite H in Hrun. injection Hrun as <- <-. left. by exists d.
  - rewrite H in Hrun. injection Hrun as <- <-. right. exists path. split_and!; try done.
    change [ReadOption "magnetism.sensorLocations"; ReadCsv path]
      with ([ReadOption "magnetism.sensorLocations"] ++ [ReadCsv path]).
    rewrite app_assoc. apply last_snoc.
Qed.

Lemma sample_options_provide :
  provides sample_options (Mag.initSensorInputFileOptions []).
Proof.
  intros d Hd. unfold Mag.initSensorInputFileOptions in Hd. cbn [app] in Hd.
  repeat (apply elem_of_cons in Hd as [->|Hd]);
    [..|by apply elem_of_nil in Hd];
    eexists; (split; [vm_compute; reflexivity|reflexivity]).
Qed.

Lemma parseSpec_fails_only_witness :
  (∃ d, d ∈ Mag.initSensorInputFileOptions []
        ∧ BadAnyCast "magnetism.supersample" = BadAnyCast (opt_name d)
        ∧ (∀ v, delete "magnetism.supersample" sample_options !! opt_name d = Some v →
                type_of v ≠ opt_type d)
        ∧ last [ReadOption "magnetism.sensorLocations"; ReadCsv "locations.csv";
                ReadOption "magnetism.gridResolution"; ReadOption "magnetism.supersample"]
          = Some (ReadOption (opt_name d)))
  ∨ (∃ path, BadAnyCast "magnetism.supersample" = CsvUnreadable path
             ∧ delete "magnetism.supersample" sample_options !! "magnetism.sensorLocations"
               = Some (VString path)
             ∧ sample_matrix_files path = None
             ∧ last [ReadOption "magnetism.sensorLocations"; ReadCsv "locations.csv";
                     ReadOption "magnetism.gridResolution"; ReadOption "magnetism.supersample"]
               = Some (ReadCsv path)).
Proof.
  apply (parseSpec_fails_only (Voxel 0 0 0 0) (Noise dzero dzero) (dzero, dzero, dzero)
           sample_matrix_files (delete "magnetism.supersample" sample_options)
           {[ MAGNETICS ]} []);
    [apply sample_options_enabled | by vm_compute].
Defined.

(** X11 — the options [initSensorInputFileOptions] declares are all
    [parseSpec] needs: when the options hold a value of its declared type for
    each of them, [parseSpec] on an enabled sensor never fails on an option;
    it returns a spec that holds the table stored under the path of
    [magnetism.sensorLocations], or fails on that file when there is none. *)
Theorem declared_options_suffice :
  ∀ iv inoise ifield files (vm : gmap string option_value)
    (sensorsEnabled : gset ForwardModel) t,
    MAGNETICS ∈ sensorsEnabled →
    provides vm (Mag.initSensorInputFileOptions []) →
    ∃ path, vm !! "magnetism.sensorLocations" = Some (VString path)
      ∧ match files path with
        | Some locs =>
            ∃ spec, Mag.parseSpec iv inoise ifield files vm sensorsEnabled t
                    = (inr spec, t ++ parseSpec_reads path)
                    ∧ Mag.locations spec = locs
        | None =>
            Mag.parseSpec iv inoise ifield files vm sensorsEnabled t
            = (inl (CsvUnreadable path),
               t ++ [ReadOption "magnetism.sensorLocations"; ReadCsv path])
        end.
Proof.
  intros iv inoise ifield files vm sensorsEnabled t Hon Hprov.
  destruct (parseSpec_outcome iv inoise ifield files vm sensorsEnabled t Hon)
    as [(path & locs & magRes & super & alpha & beta & magFld & H)
       |[(d & t0 & Hd & Hty & _ & _)|(path & E1 & E2 & H)]].
  - destruct H as (E1 & E2 & _ & _ & _ & _ & _ & H).
    exists path. split; [done|]. rewrite E2. by eexists.
  - destruct (Hprov d Hd) as (v & Hv & Htype). by destruct (Hty v Hv).
  - exists path. split; [done|]. by rewrite E2.
Qed.

Lemma declared_options_suffice_witness :
  ∃ path, sample_options !! "magnetism.sensorLocations" = Some (VString path)
    ∧ match sample_matrix_files path with
      | Some locs =>
          ∃ spec, Mag.parseSpec (Voxel 0 0 0 0) (Noise dzero dzero) (dzero, dzero, dzero)
                    sample_matrix_files sample_options {[ MAGNETICS ]} []
                  = (inr spec, [] ++ parseSpec_reads path)
                  ∧ Mag.locations spec = locs
      | None =>
          Mag.parseSpec (Voxel 0 0 0 0) (Noise dzero dzero) (dzero, dzero, dzero)
            sample_matrix_files sample_options {[ MAGNETICS ]} []
          = (inl (CsvUnreadable path),
             [] ++ [ReadOption "magnetism.sensorLocations"; ReadCsv path])
      end.
Proof.
  apply declared_options_suffice;
    [apply sample_options_enabled | apply sample_options_provide].
Defined.

Lemma uint_of_int_zero (i : Z) : is_int i → (uint_of_int i <=? 0) = true ↔ i = 0%Z.
Proof.
  unfold is_int, uint_of_int. intros Hi. rewrite N.leb_le. split.
  - intros H. destruct (Z.neg_nonneg_cases i) as [Hneg|Hpos].
    + replace (i mod 2 ^ 32)%Z with (i + 2 ^ 32)%Z in H
        by (apply (Z.mod_unique_pos _ _ (-1)); lia).
      lia.
    + rewrite Z.mod_small in H by lia. lia.
  - by intros ->.
Qed.

Lemma voxelisation_line_iff world spec result :
  Mag.msg_voxelisation ∈ diagnostics world spec result ↔ bad_voxelisation spec = true.
Proof.
  rewrite elem_of_diagnostics. split.
  - intros [[_ H]|[[_ H]|[(l & _ & _ & H)|[[H _]|[[_ H]|[_ H]]]]]]; try done; exfalso;
      unfold Mag.msg_out_of_bounds, Mag.msg_readings in H;
      cbn [String.append] in H; discriminate H.
  - intros H. by do 3 right; left.
Qed.

(** X12 — a grid resolution is read as [int]s and stored as [uint]s, so a
    negative component wraps around to 2^32 plus itself and passes the
    resolution check: for a spec that [parseSpec] returned, [validateSensor]
    logs the resolution line exactly when a component of
    [magnetism.gridResolution] is 0. *)
Theorem negative_resolution_accepted :
  ∀ iv inoise ifield files (vm : gmap string option_value)
    (sensorsEnabled : gset ForwardModel) t spec t' (x y z : Z) world result,
    MAGNETICS ∈ sensorsEnabled →
    Mag.parseSpec iv inoise ifield files vm sensorsEnabled t = (inr spec, t') →
    vm !! "magnetism.gridResolution" = Some (VVector3i (x, y, z)) →
    is_int x → is_int y → is_int z →
    walkable (Mag.locations spec) →
    (Mag.msg_voxelisation ∈ (Mag.validateSensor world spec result).2
     ↔ x = 0%Z ∨ y = 0%Z ∨ z = 0%Z)
    ∧ ((x < 0)%Z → xResolution (Mag.voxelisation spec) = Z.to_N (2 ^ 32 + x))
    ∧ ((y < 0)%Z → yResolution (Mag.voxelisation spec) = Z.to_N (2 ^ 32 + y))
    ∧ ((z < 0)%Z → zResolution (Mag.voxelisation spec) = Z.to_N (2 ^ 32 + z)).
Proof.
  intros iv inoise ifield files vm sensorsEnabled t spec t' x y z world result
    Hon Hrun Hgrid Hx Hy Hz Hw.
  assert (∀ i, is_int i → (i < 0)%Z → uint_of_int i = Z.to_N (2 ^ 32 + i)) as Hwrap.
  { unfold is_int, uint_of_int. intros i Hi Hneg. f_equal.
    symmetry. apply (Z.mod_unique_pos _ _ (-1)); lia. }
  destruct (parseSpec_outcome iv inoise ifield files vm sensorsEnabled t Hon)
    as [(path & locs & magRes & super & alpha & beta & magFld & H)
       |[(d & t0 & _ & _ & _ & H)|(path & _ & _ & H)]];
    [|rewrite H in Hrun; discriminate Hrun..].
  destruct H as (_ & _ & E3 & _ & _ & _ & _ & H).
  rewrite H in Hrun. injection Hrun as <- <-.
  rewrite Hgrid in E3. injection E3 as <-.
  split_and!; [|by apply Hwrap..].
  rewrite (validateSensor_walkable _ _ _ Hw). cbn [snd].
  rewrite voxelisation_line_iff. unfold bad_voxelisation, spec_of_options.
  cbn [Mag.voxelisation xResolution yResolution zResolution fst snd].
  rewrite !orb_true_iff, !uint_of_int_zero by done. tauto.
Qed.

Lemma negative_resolution_accepted_witness :
  (Mag.msg_voxelisation
   ∈ (Mag.validateSensor world_100
        (spec_of_options (Matrix 1 3 [d_10; d_10; dzero]) (-1, 5, 5)%Z 0 d_1 d_5
           (dzero, dzero, d_1))
        (sample_result [d_1])).2
   ↔ (-1 = 0 ∨ 5 = 0 ∨ 5 = 0)%Z)
  ∧ xResolution
      (Mag.voxelisation
         (spec_of_options (Matrix 1 3 [d_10; d_10; dzero]) (-1, 5, 5)%Z 0 d_1 d_5
            (dzero, dzero, d_1)))
    = 4294967295.
Proof.
  destruct (negative_resolution_accepted (Voxel 0 0 0 0) (Noise dzero dzero)
              (dzero, dzero, dzero) sample_matrix_files sample_options {[ MAGNETICS ]} []
              (spec_of_options (Matrix 1 3 [d_10; d_10; dzero]) (-1, 5, 5)%Z 0 d_1 d_5
                 (dzero, dzero, d_1))
              (parseSpec_reads "locations.csv") (-1) 5 5 world_100 (sample_result [d_1])
              sample_options_enabled
              ltac:(by vm_compute) ltac:(by vm_compute)
              ltac:(unfold is_int; lia) ltac:(unfold is_int; lia) ltac:(unfold is_int; lia)
              ltac:(split; [done|]; right; split; [done|reflexivity]))
    as (Hiff & Hx & _).
  split; [exact Hiff|]. apply Hx. lia.
Defined.

(** X13 — on an enabled sensor [parseSensorReadings] returns exactly when
    [magnetism.sensorReadings] holds a string and a vector is stored under
    that path; the results returned hold that vector and a likelihood of 0,
    whatever the default-constructed likelihood was, and the reads are the
    option and then the file.  Nothing else of the options is read. *)
Theorem parseSensorReadings_returns_iff :
  ∀ ilik files (vm : gmap string option_value)
    (sensorsEnabled : gset ForwardModel) t r t',
    MAGNETICS ∈ sensorsEnabled →
    Mag.parseSensorReadings ilik files vm sensorsEnabled t = (inr r, t')
    ↔ ∃ path readings,
        vm !! "magnetism.sensorReadings" = Some (VString path)
        ∧ files path = Some readings
        ∧ r = {| Mag.likelihood := dzero; Mag.readings := readings |}
        ∧ t' = t ++ [ReadOption "magnetism.sensorReadings"; ReadCsv path].
Proof.
  intros ilik files vm sensorsEnabled t r t' Hon.
  remember (Mag.parseSensorReadings ilik files vm sensorsEnabled t) as run eqn:Er.
  unfold Mag.parseSensorReadings in Er. rewrite bool_decide_eq_true_2 in Er by done.
  unfold mbind at 1, Eff_bind at 1 in Er. rewrite as_string_run in Er.
  destruct (vm !! "magnetism.sensorReadings") as [[| path | | | |]|] eqn:E1;
    cbv beta iota in Er;
    try (subst run; split; [discriminate|by intros (? & ? & [=] & _)]).
  unfold mbind at 1, Eff_bind at 1 in Er. rewrite csv_read_run in Er.
  destruct (files path) as [readings|] eqn:E2; cbv beta iota in Er.
  - subst run. rewrite <- app_assoc. split.
    + intros H. apply returned in H as [<- <-]. by exists path, readings.
    + intros (path' & readings' & [= <-] & E2' & -> & ->).
      rewrite E2 in E2'. by injection E2' as <-.
  - subst run. split; [discriminate|].
    intros (path' & readings' & [= <-] & E2' & _). rewrite E2 in E2'. discriminate E2'.
Qed.

Lemma parseSensorReadings_returns_iff_witness :
  Mag.parseSensorReadings d_5 sample_vector_files sample_options {[ MAGNETICS ]} []
  = (inr {| Mag.likelihood := dzero; Mag.readings := [d_1] |},
     [ReadOption "magnetism.sensorReadings"; ReadCsv "readings.csv"])
  ↔ ∃ path readings,
      sample_options !! "magnetism.sensorReadings" = Some (VString path)
      ∧ sample_vector_files path = Some readings
      ∧ {| Mag.likelihood := dzero; Mag.readings := [d_1] |}
        = {| Mag.likelihood := dzero; Mag.readings := readings |}
      ∧ [ReadOption "magnetism.sensorReadings"; ReadCsv "readings.csv"]
        = [] ++ [ReadOption "magnetism.sensorReadings"; ReadCsv path].
Proof. apply parseSensorReadings_returns_iff, sample_options_enabled. Defined.

(** The condition of the loop trips Eigen's assertion on a row of a table
    with fewer than two columns, unless its x alone decides: the y
    coefficient is read as soon as x is within the x bounds. *)
Lemma outside_narrow world spec l (s : list string) :
  cols (Mag.locations spec) < 2 →
  (∀ x, entry (Mag.locations spec) l 0 = Some x →
        dlt x (xBounds world).1 = false ∧ dgt x (xBounds world).2 = false) →
  Mag.outside world spec l s = (inl IndexOutOfRange, s).
Proof.
  intros Hc Hx. unfold Mag.outside.
  destruct (entry (Mag.locations spec) l 0) as [x|] eqn:E.
  - destruct (Hx x eq_refl) as [Hlt Hgt].
    rewrite (orelse_false _ _ s s)
      by (by rewrite (compare_entry _ _ _ _ _ _ E), Hlt).
    rewrite (orelse_false _ _ s s)
      by (by rewrite (compare_entry _ _ _ _ _ _ E), Hgt).
    unfold orelse. apply bind_fails, bind_fails.
    rewrite coeff_entry. unfold entry.
    assert ((1 <? cols (Mag.locations spec)) = false) as -> by (apply N.ltb_ge; lia).
    by rewrite andb_false_r.
  - unfold orelse. apply bind_fails, bind_fails. by rewrite coeff_entry, E.
Qed.

(** X14 — the column check does not keep the loop from reading columns 0
    and 1: on a table that has a row and fewer than two columns,
    [validateSensor] logs the column line and then trips Eigen's assertion on
    the first row, unless the x of that row is outside the x bounds (the
    condition then short-circuits before y is read). *)
Theorem validateSensor_narrow_table :
  ∀ world spec result,
    0 < rows (Mag.locations spec) →
    cols (Mag.locations spec) < 2 →
    (∀ x, entry (Mag.locations spec) 0 0 = Some x →
          dlt x (xBounds world).1 = false ∧ dgt x (xBounds world).2 = false) →
    Mag.validateSensor world spec result = (inl IndexOutOfRange, [Mag.msg_columns]).
Proof.
  intros world spec result Hr Hc Hx.
  unfold Mag.validateSensor, Mag.validateSensor_body.
  rewrite (bind_returns _ _ _ _ _ (check_step _ _ _ _)).
  rewrite (bind_returns _ _ _ _ _ (check_step _ _ _ _)).
  assert ((rows (Mag.locations spec) =? 0) = false) as -> by (apply N.eqb_neq; lia).
  assert ((uint (cols (Mag.locations spec)) =? 3) = false) as ->.
  { apply N.eqb_neq. unfold uint. rewrite N.mod_small; [lia|].
    apply N.lt_trans with 2; [done|reflexivity]. }
  cbn [when negb app].
  apply bind_fails. rewrite locations_loop_step.
  assert ((0 <? rows (Mag.locations spec)) = true) as -> by (by apply N.ltb_lt).
  apply bind_fails. by apply outside_narrow.
Qed.

Lemma validateSensor_narrow_table_witness :
  Mag.validateSensor world_100 (sample_spec (Matrix 1 1 [d_10]) d_1 d_1) (sample_result [d_1])
  = (inl IndexOutOfRange, [Mag.msg_columns]).
Proof.
  apply validateSensor_narrow_table; [reflexivity|reflexivity|].
  intros x H. vm_compute in H. injection H as <-. by vm_compute.
Defined.

(** ** Further properties of the gravity wire codec *)

Section SerialFurther.

Context `{!ProtobufMessage PB.GravSpecProtobuf}.
Context `{!ProtobufMessage PB.GravParamsProtobuf}.
Context `{!ProtobufMessage PB.GravResultsProtobuf}.
Variable matrixString : MatrixXd → list byte.
Variable stringMatrix : list byte → N → option MatrixXd.

(** A [GravResults] comes back from its encoding into an object with empty
    readings, with readings to send or without. *)
Lemma unserialise_serialise_GravResults_fresh (x : Grav.GravResults) :
  parse_serialize PB.GravResultsProtobuf →
  (Grav.readings x ≠ [] →
   restores matrixString stringMatrix (Grav.as_matrix (Grav.readings x))) →
  Grav.unserialise_GravResults stringMatrix (Grav.serialise_GravResults matrixString x)
    {| Grav.likelihood := dzero; Grav.readings := [] |}
  = Some x.
Proof.
  intros Hlaw Hm. destruct (decide (Grav.readings x = [])) as [He|Hne].
  - rewrite unserialise_serialise_GravResults_none by done.
    destruct x as [l r]. cbn in He. by subst r.
  - apply unserialise_serialise_GravResults_some; auto.
Qed.

(** X15 — no two values share an encoding: under the contracts of the
    protobuf library and of the matrix codec, two [GravSpec], two
    [GravParams] or two [GravResults] values that differ are serialised to
    different byte strings; in particular the encoding of a [GravResults]
    without readings is never that of one with readings. *)
Theorem gravity_serialise_injective :
  parse_serialize PB.GravSpecProtobuf →
  parse_serialize PB.GravParamsProtobuf →
  parse_serialize PB.GravResultsProtobuf →
  (∀ x y : Grav.GravSpec,
     restores matrixString stringMatrix (Grav.locations x) →
     restores matrixString stringMatrix (Grav.locations y) →
     x ≠ y →
     Grav.serialise_GravSpec matrixString x ≠ Grav.serialise_GravSpec matrixString y)
  ∧ (∀ x y : Grav.GravParams,
       x ≠ y → Grav.serialise_GravParams x ≠ Grav.serialise_GravParams y)
  ∧ (∀ x y : Grav.GravResults,
       (Grav.readings x ≠ [] →
        restores matrixString stringMatrix (Grav.as_matrix (Grav.readings x))) →
       (Grav.readings y ≠ [] →
        restores matrixString stringMatrix (Grav.as_matrix (Grav.readings y))) →
       x ≠ y →
       Grav.serialise_GravResults matrixString x ≠ Grav.serialise_GravResults matrixString y).
Proof.
  intros Hspec Hparams Hresults. split_and!.
  - intros x y Hx Hy Hne E. apply Hne.
    pose proof (unserialise_serialise_GravSpec matrixString stringMatrix x x Hspec Hx) as Ux.
    pose proof (unserialise_serialise_GravSpec matrixString stringMatrix y x Hspec Hy) as Uy.
    rewrite E in Ux. rewrite Ux in Uy. by injection Uy.
  - intros x y Hne E. apply Hne.
    pose proof (unserialise_serialise_GravParams x x Hparams) as Ux.
    pose proof (unserialise_serialise_GravParams y x Hparams) as Uy.
    rewrite E in Ux. rewrite Ux in Uy. by injection Uy.
  - intros x y Hx Hy Hne E. apply Hne.
    pose proof (unserialise_serialise_GravResults_fresh x Hresults Hx) as Ux.
    pose proof (unserialise_serialise_GravResults_fresh y Hresults Hy) as Uy.
    rewrite E in Ux. rewrite Ux in Uy. by injection Uy.
Qed.

(** X16 — readings that arrive replace the ones the target held: when a
    payload has a [readings] field, what [unserialise] makes of it does not
    depend on the [GravResults] object passed in; and a [GravResults] with
    readings comes back from its encoding whatever the target held before. *)
Theorem present_readings_overwrite :
  parse_serialize PB.GravResultsProtobuf →
  (∀ (s : list byte) (g0 g0' : Grav.GravResults),
     PB.has_readings (ParseFromString s) = true →
     Grav.unserialise_GravResults stringMatrix s g0
     = Grav.unserialise_GravResults stringMatrix s g0')
  ∧ (∀ x g0 : Grav.GravResults,
       Grav.readings x ≠ [] →
       restores matrixString stringMatrix (Grav.as_matrix (Grav.readings x)) →
       Grav.unserialise_GravResults stringMatrix
         (Grav.serialise_GravResults matrixString x) g0
       = Some x).
Proof.
  intros Hlaw. split.
  - intros s g0 g0' Hhas. unfold Grav.unserialise_GravResults. cbv zeta. by rewrite Hhas.
  - intros x g0 Hne Hm. by apply unserialise_serialise_GravResults_some.
Qed.

End SerialFurther.

Lemma gravity_serialise_injective_witness :
  @Grav.serialise_GravSpec RefWire.GravSpec_wire MatrixCodec.encode sample_GravSpec
  ≠ @Grav.serialise_GravSpec RefWire.GravSpec_wire MatrixCodec.encode
      {| Grav.locations := Grav.locations sample_GravSpec;
         Grav.voxelisation := Voxel 10 10 10 1;
         Grav.noise := Grav.noise sample_GravSpec |}
  ∧ @Grav.serialise_GravParams RefWire.GravParams_wire sample_GravParams
    ≠ @Grav.serialise_GravParams RefWire.GravParams_wire {| Grav.returnSensorData := false |}
  ∧ @Grav.serialise_GravResults RefWire.GravResults_wire MatrixCodec.encode sample_GravResults
    ≠ @Grav.serialise_GravResults RefWire.GravResults_wire MatrixCodec.encode
        {| Grav.likelihood := d_5; Grav.readings := [] |}.
Proof.
  destruct (@gravity_serialise_injective
              RefWire.GravSpec_wire RefWire.GravParams_wire RefWire.GravResults_wire
              MatrixCodec.encode MatrixCodec.decode
              GravSpec_wire_law GravParams_wire_law GravResults_wire_law)
    as (Hspec & Hparams & Hresults).
  split_and!.
  - apply Hspec; [apply MatrixCodec_restores; [reflexivity|by left]..|].
    intros E. apply (f_equal (λ g, supersample (Grav.voxelisation g))) in E.
    discriminate E.
  - apply Hparams. intros E. apply (f_equal Grav.returnSensorData) in E. discriminate E.
  - apply Hresults.
    + intros _. apply MatrixCodec_restores; [reflexivity|by left].
    + intros Hne. by destruct Hne.
    + intros E. apply (f_equal Grav.readings) in E. discriminate E.
Defined.

Lemma present_readings_overwrite_witness :
  @Grav.unserialise_GravResults RefWire.GravResults_wire MatrixCodec.decode
    (@Grav.serialise_GravResults RefWire.GravResults_wire MatrixCodec.encode sample_GravResults)
    {| Grav.likelihood := d_100; Grav.readings := [d_200; d_200; d_200] |}
  = Some sample_GravResults.
Proof.
  destruct (@present_readings_overwrite RefWire.GravResults_wire
              MatrixCodec.encode MatrixCodec.decode GravResults_wire_law) as (_ & Hback).
  apply Hback; [done|]. apply MatrixCodec_restores; [reflexivity|by left].
Defined.
